(** * A shallow embedding of [midterm/compiler.py]

    The program is a four-stage pipeline: [Lexer] (text to tokens, on
    demand), [Parser] (recursive descent, one token of lookahead),
    [CodeGen] (post-order walk emitting stack bytecode) and [VM] (a stack
    machine with a variable store, printing to standard output).

    Modelling conventions.
    - A Python [str] is a [string]; each [ascii] stands for the code point
      of the same number, so the model covers texts over code points
      0..255 and the [str] predicates are tabulated on that range.
    - A Python [int] is a [Z]; conversions between [int] and [str] are the
      unbounded ones.
    - A raised exception is a value of [exn]; every stage returns a
      [result], and the recursion and the loops of the parser take a fuel
      argument, since [Parser.parse] does not terminate on every input.
    - The [dict] of the machine is a [gmap string Z]. *)

From Stdlib Require Import ZArith Ascii String DecimalString.
From Stdlib Require DecimalPos DecimalZ.
From stdpp Require Import gmap strings list.

Local Open Scope string_scope.
Local Open Scope list_scope.
Local Open Scope Z_scope.

(** ** Exceptions and results *)

Inductive exn : Type :=
| Exception (msg : string)      (* [raise Exception(...)] in the lexer and in [eat] *)
| ValueError (literal : string) (* [int(...)] on a run that is no decimal literal *)
| TypeError                     (* subscripting [None] in [CodeGen.gen] *)
| KeyError (key : string)       (* [self.vars[name]] on an unbound name *)
| IndexError                    (* [pop] from an empty list *)
| ZeroDivisionError.            (* [a // 0] *)

Inductive result (A : Type) : Type :=
| Ok (a : A)
| Raise (e : exn)
| OutOfFuel.

Arguments Ok {A} a.
Arguments Raise {A} e.
Arguments OutOfFuel {A}.

#[global] Instance result_ret : MRet result := fun A a => Ok a.

#[global] Instance result_bind : MBind result := fun A B k r =>
  match r with
  | Ok a => k a
  | Raise e => Raise e
  | OutOfFuel => OutOfFuel
  end.

(** ** Characters: the [str] predicates on code points 0..255 *)

Definition code (c : ascii) : N := N_of_ascii c.

Definition between (lo hi : N) (c : ascii) : bool :=
  ((lo <=? code c) && (code c <=? hi))%N.

(** [str.isspace]: TAB..CR, FS..US, space, NEL, NBSP. *)
Definition isspace (c : ascii) : bool :=
  between 9 13 c || between 28 32 c || between 133 133 c || between 160 160 c.

(** The decimal digits [0]..[9], the only ones [int] accepts here. *)
Definition isdecimal (c : ascii) : bool := between 48 57 c.

(** [str.isdigit]: the decimal digits and the superscripts two, three, one. *)
Definition isdigit (c : ascii) : bool :=
  isdecimal c || between 178 179 c || between 185 185 c.

(** [str.isalpha]: the letters of general category L. *)
Definition isalpha (c : ascii) : bool :=
  between 65 90 c || between 97 122 c
  || between 170 170 c || between 181 181 c || between 186 186 c
  || between 192 214 c || between 216 246 c || between 248 255 c.

(** [str.isalnum]: alphabetic, digit, or numeric (the vulgar fractions). *)
Definition isalnum (c : ascii) : bool :=
  isalpha c || isdigit c || between 188 190 c.

(** [int(s)] for a run [s] of [isdigit] characters. *)
Fixpoint int_digits (acc : Z) (s : string) : option Z :=
  match s with
  | EmptyString => Some acc
  | String c s' =>
      if isdecimal c
      then int_digits (10 * acc + Z.of_N (code c - 48)) s'
      else None
  end.

Definition int (s : string) : result Z :=
  match s with
  | EmptyString => Raise (ValueError s)
  | _ => match int_digits 0 s with
         | Some n => Ok n
         | None => Raise (ValueError s)
         end
  end.

(** [str(n)] for an [int]. *)
Definition str (n : Z) : string := NilZero.string_of_int (Z.to_int n).

(** ** Tokens *)

Inductive token_type : Type :=
| NUMBER | PLUS | MINUS | TIMES | DIVIDE | LPAREN | RPAREN
| IDENT | ASSIGN | PRINT | EOF.

(** The token types are the strings of their own names. *)
Definition type_name (t : token_type) : string :=
  match t with
  | NUMBER => "NUMBER" | PLUS => "PLUS" | MINUS => "MINUS"
  | TIMES => "TIMES" | DIVIDE => "DIVIDE" | LPAREN => "LPAREN"
  | RPAREN => "RPAREN" | IDENT => "IDENT" | ASSIGN => "ASSIGN"
  | PRINT => "PRINT" | EOF => "EOF"
  end.

#[global] Instance token_type_eq_dec : EqDecision token_type.
Proof. solve_decision. Defined.

(** [Token(type_, value)]: a NUMBER carries an [int], an IDENT a [str],
    every other token is built with [value=None]. *)
Inductive Token : Type :=
| TNumber (value : Z)
| TIdent (value : string)
| TOther (type_ : token_type).

Definition type (t : Token) : token_type :=
  match t with
  | TNumber _ => NUMBER
  | TIdent _ => IDENT
  | TOther ty => ty
  end.

(** ** Lexer *)

Record Lexer : Type := mkLexer { text : string; pos : nat }.

(** [while self.pos < len(self.text) and p(self.text[self.pos]): self.pos += 1];
    the loop runs at most [len(text) - pos] times, which is the [fuel]. *)
Fixpoint advance_while (p : ascii -> bool) (txt : string) (fuel : nat) (i : nat) : nat :=
  match fuel with
  | O => i
  | S fuel' =>
      match String.get i txt with
      | Some c => if p c then advance_while p txt fuel' (S i) else i
      | None => i
      end
  end.

Definition scan (p : ascii -> bool) (txt : string) (i : nat) : nat :=
  advance_while p txt (String.length txt - i)%nat i.

(** [self.text[start:stop]] *)
Definition slice (txt : string) (start stop : nat) : string :=
  String.substring start (stop - start) txt.

Definition unknown_character (c : ascii) : string :=
  "Unknown character: " +:+ String c "".

Definition next_token (lx : Lexer) : result (Token * Lexer) :=
  let txt := text lx in
  let p := scan isspace txt (pos lx) in
  match String.get p txt with
  | None => Ok (TOther EOF, mkLexer txt p)
  | Some char =>
      if isdigit char then
        let stop := scan isdigit txt p in
        n ← int (slice txt p stop);
        Ok (TNumber n, mkLexer txt stop)
      else if isalpha char then
        let stop := scan isalnum txt p in
        let word := slice txt p stop in
        if String.eqb word "print"
        then Ok (TOther PRINT, mkLexer txt stop)
        else Ok (TIdent word, mkLexer txt stop)
      else
        let lx' := mkLexer txt (S p) in
        if Ascii.eqb char "+" then Ok (TOther PLUS, lx')
        else if Ascii.eqb char "-" then Ok (TOther MINUS, lx')
        else if Ascii.eqb char "*" then Ok (TOther TIMES, lx')
        else if Ascii.eqb char "/" then Ok (TOther DIVIDE, lx')
        else if Ascii.eqb char "(" then Ok (TOther LPAREN, lx')
        else if Ascii.eqb char ")" then Ok (TOther RPAREN, lx')
        else if Ascii.eqb char "=" then Ok (TOther ASSIGN, lx')
        else Raise (Exception (unknown_character char))
  end.

(** ** AST nodes

    The parser builds tuples [('number', v)], [('var', n)],
    [('binop', op, l, r)], [('assign', n, e)], [('print', e)], and returns
    [None] where [factor] or [statement] meets a token it has no branch for. *)

Inductive node : Type :=
| number (val : Z)
| var (name : string)
| binop (op : token_type) (l r : node)
| assign (name : string) (expr : node)
| print (expr : node)
| None_.

(** ** Parser *)

Record Parser : Type := mkParser { lexer : Lexer; token : Token }.

(** [Parser.__init__] *)
Definition Parser_init (lx : Lexer) : result Parser :=
  '(t, lx') ← next_token lx;
  Ok (mkParser lx' t).

Definition expected (want got : token_type) : string :=
  "Expected " +:+ type_name want +:+ ", got " +:+ type_name got.

Definition eat (token_type : token_type) (p : Parser) : result Parser :=
  if decide (type (token p) = token_type)
  then '(t, lx') ← next_token (lexer p); Ok (mkParser lx' t)
  else Raise (Exception (expected token_type (type (token p)))).

(** The loop shared by [term] and [expr]:
    [while self.token.type in ops: op = self.token.type; self.eat(op);
     node = ('binop', op, node, operand())]. *)
Fixpoint while_op (ops : list token_type) (operand : Parser -> result (node * Parser))
    (fuel : nat) (nd : node) (p : Parser) : result (node * Parser) :=
  match fuel with
  | O => OutOfFuel
  | S fuel' =>
      let op := type (token p) in
      if bool_decide (op ∈ ops) then
        p1 ← eat op p;
        '(r, p2) ← operand p1;
        while_op ops operand fuel' (binop op nd r) p2
      else Ok (nd, p)
  end.

Section Layers.
(** The two operator layers, over the parser of the layer below. *)
Variable factor : Parser -> result (node * Parser).

Definition term_with (fuel : nat) (p : Parser) : result (node * Parser) :=
  '(nd, p1) ← factor p;
  while_op [TIMES; DIVIDE] factor fuel nd p1.

Definition expr_with (fuel : nat) (p : Parser) : result (node * Parser) :=
  '(nd, p1) ← term_with fuel p;
  while_op [PLUS; MINUS] (term_with fuel) fuel nd p1.
End Layers.

Fixpoint factor (fuel : nat) (p : Parser) : result (node * Parser) :=
  match fuel with
  | O => OutOfFuel
  | S fuel' =>
      match token p with
      | TNumber val =>
          p1 ← eat NUMBER p;
          Ok (number val, p1)
      | TIdent name =>
          p1 ← eat IDENT p;
          Ok (var name, p1)
      | TOther LPAREN =>
          p1 ← eat LPAREN p;
          '(nd, p2) ← expr_with (factor fuel') fuel' p1;
          p3 ← eat RPAREN p2;
          Ok (nd, p3)
      | TOther _ => Ok (None_, p)
      end
  end.

Definition term (fuel : nat) : Parser -> result (node * Parser) :=
  term_with (factor fuel) fuel.

Definition expr (fuel : nat) : Parser -> result (node * Parser) :=
  expr_with (factor fuel) fuel.

Definition statement (fuel : nat) (p : Parser) : result (node * Parser) :=
  match token p with
  | TIdent varname =>
      p1 ← eat IDENT p;
      p2 ← eat ASSIGN p1;
      '(e, p3) ← expr fuel p2;
      Ok (assign varname e, p3)
  | TOther PRINT =>
      p1 ← eat PRINT p;
      '(e, p2) ← expr fuel p1;
      Ok (print e, p2)
  | _ => Ok (None_, p)
  end.

(** The [while self.token.type != EOF] loop of [parse]. *)
Fixpoint parse_loop (fuel loop : nat) (statements : list node) (p : Parser)
  : result (list node * Parser) :=
  match loop with
  | O => OutOfFuel
  | S loop' =>
      if decide (type (token p) <> EOF) then
        '(s, p1) ← statement fuel p;
        parse_loop fuel loop' (statements ++ [s]) p1
      else Ok (statements, p)
  end.

Definition parse (fuel : nat) (p : Parser) : result (list node * Parser) :=
  parse_loop fuel fuel [] p.

(** ** Code generator *)

Module Op.
(** The instruction tuples [('PUSH', v)], [('LOAD', n)], [('STORE', n)],
    [('ADD',)], [('SUB',)], [('MUL',)], [('DIV',)], [('PRINT',)]. *)
Inductive instr : Type :=
| PUSH (val : Z)
| LOAD (name : string)
| STORE (name : string)
| ADD | SUB | MUL | DIV
| PRINT.
End Op.

#[global] Instance instr_eq_dec : EqDecision Op.instr.
Proof. solve_decision. Defined.

(** The dictionary [ops] of [gen], looked up with [ops[op]]. *)
Definition ops (op : token_type) : result Op.instr :=
  match op with
  | PLUS => Ok Op.ADD
  | MINUS => Ok Op.SUB
  | TIMES => Ok Op.MUL
  | DIVIDE => Ok Op.DIV
  | _ => Raise (KeyError (type_name op))
  end.

(** [CodeGen.gen], threading [self.bytecode]; the [self.vars] that
    [CodeGen.__init__] also creates is never read or written. *)
Fixpoint gen (nd : node) (bytecode : list Op.instr) : result (list Op.instr) :=
  match nd with
  | None_ => Raise TypeError
  | number val => Ok (bytecode ++ [Op.PUSH val])
  | var name => Ok (bytecode ++ [Op.LOAD name])
  | binop op l r =>
      bc1 ← gen l bytecode;
      bc2 ← gen r bc1;
      i ← ops op;
      Ok (bc2 ++ [i])
  | assign name e =>
      bc ← gen e bytecode;
      Ok (bc ++ [Op.STORE name])
  | print e =>
      bc ← gen e bytecode;
      Ok (bc ++ [Op.PRINT])
  end.

(** [for stmt in ast: codegen.gen(stmt)] *)
Fixpoint gen_all (ast : list node) (bytecode : list Op.instr) : result (list Op.instr) :=
  match ast with
  | [] => Ok bytecode
  | stmt :: ast' => bc ← gen stmt bytecode; gen_all ast' bc
  end.

(** ** Virtual machine *)

(** The operand stack (top first), the variable store, and the lines
    written to standard output so far. *)
Record VM : Type := mkVM {
  stack : list Z;
  vars : gmap string Z;
  stdout : list string
}.

(** How a run ends: after the last instruction, or at a raised exception,
    in both cases with the machine as it is at that moment. *)
Inductive outcome : Type :=
| Done (vm : VM)
| Fail (e : exn) (vm : VM).

Definition binary (f : Z -> Z -> Z) (vm : VM) : outcome :=
  match stack vm with
  | [] => Fail IndexError vm
  | [b] => Fail IndexError (mkVM [] (vars vm) (stdout vm))
  | b :: a :: rest => Done (mkVM (f a b :: rest) (vars vm) (stdout vm))
  end.

(** One iteration of the [for instr in self.bytecode] loop. *)
Definition step (i : Op.instr) (vm : VM) : outcome :=
  match i with
  | Op.PUSH val => Done (mkVM (val :: stack vm) (vars vm) (stdout vm))
  | Op.LOAD name =>
      match vars vm !! name with
      | Some val => Done (mkVM (val :: stack vm) (vars vm) (stdout vm))
      | None => Fail (KeyError name) vm
      end
  | Op.STORE name =>
      match stack vm with
      | [] => Fail IndexError vm
      | val :: rest => Done (mkVM rest (<[name := val]> (vars vm)) (stdout vm))
      end
  | Op.ADD => binary Z.add vm
  | Op.SUB => binary Z.sub vm
  | Op.MUL => binary Z.mul vm
  | Op.DIV =>
      match stack vm with
      | [] => Fail IndexError vm
      | [b] => Fail IndexError (mkVM [] (vars vm) (stdout vm))
      | b :: a :: rest =>
          if decide (b = 0)
          then Fail ZeroDivisionError (mkVM rest (vars vm) (stdout vm))
          else Done (mkVM (a `div` b :: rest) (vars vm) (stdout vm))
      end
  | Op.PRINT =>
      match stack vm with
      | [] => Fail IndexError vm
      | val :: rest => Done (mkVM rest (vars vm) (stdout vm ++ [str val]))
      end
  end.

Fixpoint run (bytecode : list Op.instr) (vm : VM) : outcome :=
  match bytecode with
  | [] => Done vm
  | i :: bytecode' =>
      match step i vm with
      | Done vm' => run bytecode' vm'
      | Fail e vm' => Fail e vm'
      end
  end.

(** [VM.__init__], on a standard output that already holds [out]. *)
Definition VM_init (out : list string) : VM := mkVM [] ∅ out.

(** ** The pipeline *)

(** What a call of [run_compiler] amounts to: it returns, or an exception
    escapes it, or the fuel given to the model did not suffice; with the
    lines on standard output in the first two cases. *)
Inductive report : Type :=
| Returned (out : list string)
| Escaped (e : exn) (out : list string)
| Unfinished.

Definition compile (fuel : nat) (source : string) : result (list Op.instr) :=
  parser ← Parser_init (mkLexer source 0);
  '(ast, _) ← parse fuel parser;
  gen_all ast [].

Definition run_compiler_from (out : list string) (fuel : nat) (source : string) : report :=
  match compile fuel source with
  | Ok bytecode =>
      match run bytecode (VM_init out) with
      | Done vm => Returned (stdout vm)
      | Fail e vm => Escaped e (stdout vm)
      end
  | Raise e => Escaped e out
  | OutOfFuel => Unfinished
  end.

Definition run_compiler : nat -> string -> report := run_compiler_from [].

(** The example input at the end of the file, and the same three
    statements without the blank first and last lines. *)
Definition newline : string := String (ascii_of_nat 10) "".

Definition program : string :=
  newline +:+ "x = 3 + 4 * 2" +:+ newline +:+ "y = x - 5" +:+ newline
  +:+ "print y" +:+ newline.

Definition three_statements : string :=
  "x = 3 + 4 * 2" +:+ newline +:+ "y = x - 5" +:+ newline +:+ "print y".

(** ** Reference semantics

    The value of an expression as mathematics has it, in an environment:
    exact integer arithmetic, floor division, undefined on an unbound
    variable and on a zero divisor. *)

Definition arith (op : token_type) (a b : Z) : option Z :=
  match op with
  | PLUS => Some (a + b)
  | MINUS => Some (a - b)
  | TIMES => Some (a * b)
  | DIVIDE => if decide (b = 0) then None else Some (a `div` b)
  | _ => None
  end.

Fixpoint eval (env : gmap string Z) (e : node) : option Z :=
  match e with
  | number val => Some val
  | var name => env !! name
  | binop op l r =>
      a ← eval env l;
      b ← eval env r;
      arith op a b
  | _ => None
  end.

Definition is_operator (op : token_type) : bool :=
  match op with
  | PLUS | MINUS | TIMES | DIVIDE => true
  | _ => false
  end.

(** The expression nodes, and the statement nodes over them. *)
Fixpoint is_expr (e : node) : bool :=
  match e with
  | number _ | var _ => true
  | binop op l r => is_operator op && is_expr l && is_expr r
  | _ => false
  end.

Definition is_stmt (s : node) : bool :=
  match s with
  | assign _ e | print e => is_expr e
  | _ => false
  end.

Definition exec_stmt (s : node) (st : gmap string Z * list string)
  : option (gmap string Z * list string) :=
  match s with
  | assign name e => v ← eval st.1 e; Some (<[name := v]> st.1, st.2)
  | print e => v ← eval st.1 e; Some (st.1, st.2 ++ [str v])
  | _ => None
  end.

Fixpoint exec (ast : list node) (st : gmap string Z * list string)
  : option (gmap string Z * list string) :=
  match ast with
  | [] => Some st
  | s :: ast' => st' ← exec_stmt s st; exec ast' st'
  end.

Definition push (v : Z) (vm : VM) : VM :=
  mkVM (v :: stack vm) (vars vm) (stdout vm).

(** A run that stops short of the end does so at a fault other than a pop
    from the empty stack. *)
Definition no_underflow (o : outcome) : Prop :=
  match o with
  | Done _ => True
  | Fail e _ => e <> IndexError
  end.

(** What the code of an expression does: it pushes the value where the
    expression has one, and otherwise faults on a load or a division,
    having written nothing. *)
Definition computes (c : list Op.instr) (e : node) : Prop :=
  forall vm,
    match eval (vars vm) e with
    | Some v => run c vm = Done (push v vm)
    | None => exists ex vm', run c vm = Fail ex vm' /\
                (ex = ZeroDivisionError \/ exists n, ex = KeyError n) /\
                stdout vm' = stdout vm
    end.

(** ** The token stream and the grammar

    [advance] is what a successful [eat] does; [stream] calls it until the
    current token is EOF and collects the tokens met, which is how the
    parser drives the lexer. *)

Definition advance (p : Parser) : result Parser :=
  '(t, lx') ← next_token (lexer p);
  Ok (mkParser lx' t).

Fixpoint stream (fuel : nat) (p : Parser) : result (list Token) :=
  match fuel with
  | O => OutOfFuel
  | S fuel' =>
      if decide (type (token p) = EOF) then Ok []
      else
        p' ← advance p;
        ts ← stream fuel' p';
        Ok (token p :: ts)
  end.

Definition tokenize (fuel : nat) (source : string) : result (list Token) :=
  p ← Parser_init (mkLexer source 0);
  stream fuel p.

(** From parser state [p], the tokens ahead are [ts], then EOF. *)
Inductive feeds : Parser -> list Token -> Prop :=
| feeds_end p :
    type (token p) = EOF -> feeds p []
| feeds_token p p' ts :
    type (token p) <> EOF -> advance p = Ok p' -> feeds p' ts ->
    feeds p (token p :: ts).

(** The source text yields the tokens [ts], then EOF. *)
Definition lexes (source : string) (ts : list Token) : Prop :=
  exists p, Parser_init (mkLexer source 0) = Ok p /\ feeds p ts.

Definition head_type (ts : list Token) : token_type :=
  match ts with
  | [] => EOF
  | t :: _ => type t
  end.

(** The grammar
    [expr := term (('+'|'-') term)*], [term := factor (('*'|'/') factor)*],
    [factor := NUMBER | IDENT | '(' expr ')'],
    with the tree each derivation denotes: operators of one layer associate
    to the left, and the [term] layer binds tighter than the [expr] layer. *)
Inductive layer : Type := Factor | Term | Expr.

Inductive derives : layer -> list Token -> node -> Prop :=
| d_number n :
    derives Factor [TNumber n] (number n)
| d_ident x :
    derives Factor [TIdent x] (var x)
| d_paren ts e :
    derives Expr ts e ->
    derives Factor (TOther LPAREN :: ts ++ [TOther RPAREN]) e
| d_factor ts e :
    derives Factor ts e -> derives Term ts e
| d_mul op ts1 ts2 l r :
    op ∈ [TIMES; DIVIDE] -> derives Term ts1 l -> derives Factor ts2 r ->
    derives Term (ts1 ++ TOther op :: ts2) (binop op l r)
| d_term ts e :
    derives Term ts e -> derives Expr ts e
| d_add op ts1 ts2 l r :
    op ∈ [PLUS; MINUS] -> derives Expr ts1 l -> derives Term ts2 r ->
    derives Expr (ts1 ++ TOther op :: ts2) (binop op l r).

(** [statement := IDENT '=' expr | 'print' expr], [program := statement*]. *)
Inductive derives_stmt : list Token -> node -> Prop :=
| d_assign x ts e :
    derives Expr ts e ->
    derives_stmt (TIdent x :: TOther ASSIGN :: ts) (assign x e)
| d_print ts e :
    derives Expr ts e ->
    derives_stmt (TOther PRINT :: ts) (print e).

Inductive derives_program : list Token -> list node -> Prop :=
| d_empty :
    derives_program [] []
| d_stmt ts1 ts2 s ast :
    derives_stmt ts1 s -> derives_program ts2 ast ->
    derives_program (ts1 ++ ts2) (s :: ast).

(** ** What the parser is to do with a derivation

    [absorbs ops sub p e p' m]: started at [p], one operand and [m] rounds
    of the operator loop build [e] and reach [p'], where the loop goes on. *)
Definition absorbs (ops : list token_type) (sub : Parser -> result (node * Parser))
    (p : Parser) (e : node) (p' : Parser) (m : nat) : Prop :=
  forall fuel,
    ('(x, p1) ← sub p; while_op ops sub (m + fuel) x p1) = while_op ops sub fuel e p'.

Definition parses (lay : layer) (ts : list Token) (e : node) : Prop :=
  forall p rest, feeds p (ts ++ rest) ->
    match lay with
    | Factor =>
        exists p' n, feeds p' rest /\
          forall g, (n <= g)%nat -> factor g p = Ok (e, p')
    | Term =>
        exists p' n m, feeds p' rest /\
          forall g, (n <= g)%nat -> absorbs [TIMES; DIVIDE] (factor g) p e p' m
    | Expr =>
        head_type rest ∉ [TIMES; DIVIDE] ->
        exists p' n m, feeds p' rest /\
          forall g, (n <= g)%nat ->
            absorbs [PLUS; MINUS] (term_with (factor g) g) p e p' m
    end.

(** ** Standard output across calls

    A report with the lines [out] put before its own. *)
Definition with_prefix (out : list string) (r : report) : report :=
  match r with
  | Returned l => Returned (out ++ l)
  | Escaped e l => Escaped e (out ++ l)
  | Unfinished => Unfinished
  end.

Definition outcome_with_prefix (out : list string) (o : outcome) : outcome :=
  match o with
  | Done vm => Done (mkVM (stack vm) (vars vm) (out ++ stdout vm))
  | Fail e vm => Fail e (mkVM (stack vm) (vars vm) (out ++ stdout vm))
  end.

(** ** Characters the lexer has no rule for *)

Definition is_op_char (c : ascii) : bool :=
  Ascii.eqb c "+" || Ascii.eqb c "-" || Ascii.eqb c "*" || Ascii.eqb c "/"
  || Ascii.eqb c "(" || Ascii.eqb c ")" || Ascii.eqb c "=".

(** Not a digit, not a letter, not whitespace, none of [+ - * / ( ) =]. *)
Definition unknown (c : ascii) : bool :=
  negb (isdigit c || isalpha c || isspace c || is_op_char c).

(** [c.isascii()] and [s.isascii()]. *)
Definition isascii (c : ascii) : bool := (code c <? 128)%N.

Fixpoint all_chars (p : ascii -> bool) (s : string) : bool :=
  match s with
  | EmptyString => true
  | String c s' => p c && all_chars p s'
  end.

(** ** The nodes the parser can return

    [factor], [term] and [expr] return an expression node in which [None]
    may stand for a missing operand; [statement] returns an assignment or a
    print of such a node, or [None]. *)
Fixpoint expr_shaped (e : node) : bool :=
  match e with
  | number _ | var _ | None_ => true
  | binop op l r => is_operator op && expr_shaped l && expr_shaped r
  | _ => false
  end.

Definition stmt_shaped (s : node) : bool :=
  match s with
  | assign _ e | print e => expr_shaped e
  | None_ => true
  | _ => false
  end.

(** ** Fuel

    [r ⊑ r'] in the sense that [r'] is [r] unless [r] ran out of fuel. *)
Definition below {A : Type} (r r' : result A) : Prop :=
  r <> OutOfFuel -> r' = r.

(** ** How much input a parser state has left

    The characters not yet read by the lexer, and one more while the
    current token is not EOF. *)
Definition remaining (p : Parser) : nat :=
  (String.length (text (lexer p)) - pos (lexer p)
   + (if decide (type (token p) = EOF) then 0 else 1))%nat.

(** [sub] comes to an end on the states with at most [k] left, and leaves
    no more input than it found. *)
Definition ends_within (k : nat) (sub : Parser -> result (node * Parser)) : Prop :=
  forall q, (remaining q <= k)%nat ->
    sub q <> OutOfFuel /\
    forall e q', sub q = Ok (e, q') -> (remaining q' <= remaining q)%nat.

(** From [p], reading the tokens [ts] one after the other leads to [p']. *)
Inductive reads : Parser -> list Token -> Parser -> Prop :=
| reads_nil p :
    reads p [] p
| reads_cons p p1 ts p' :
    type (token p) <> EOF -> advance p = Ok p1 -> reads p1 ts p' ->
    reads p (token p :: ts) p'.

(** The lines on standard output when the reference run of [ast] ends or
    stops at the first statement without a value. *)
Fixpoint printed (ast : list node) (st : gmap string Z * list string) : list string :=
  match ast with
  | [] => st.2
  | s :: ast' =>
      match exec_stmt s st with
      | Some st' => printed ast' st'
      | None => st.2
      end
  end.

(** The errors of the front end: an unknown character or a digit run that
    is no decimal literal, from the lexer; a token other than the expected
    one, from [eat]. *)
Definition front_error (e : exn) : Prop :=
  (exists c, e = Exception (unknown_character c))
  \/ (exists want got, e = Exception (expected want got))
  \/ (exists literal, e = ValueError literal).

(** [r] raises nothing but what [P] allows. *)
Definition raises {A : Type} (P : exn -> Prop) (r : result A) : Prop :=
  forall e, r = Raise e -> P e.

(** The machine a run ends with, at the last instruction or at the fault. *)
Definition machine_of (o : outcome) : VM :=
  match o with
  | Done vm => vm
  | Fail _ vm => vm
  end.

(** The nodes [gen] has code for: no [None] anywhere, and every [binop]
    with one of the four operators; statements may stand where [gen] does
    not look at what kind of node it is given. *)
Fixpoint generable (nd : node) : bool :=
  match nd with
  | number _ | var _ => true
  | binop op l r => generable l && generable r && is_operator op
  | assign _ e | print e => generable e
  | None_ => false
  end.

(** [Token.__repr__]: [f'{self.type}:{self.value}']. *)
Definition repr (t : Token) : string :=
  match t with
  | TNumber value => type_name NUMBER +:+ ":" +:+ str value
  | TIdent value => type_name IDENT +:+ ":" +:+ value
  | TOther type_ => type_name type_ +:+ ":" +:+ "None"
  end.

(** The tokens as [Token(...)] is called in the lexer: a NUMBER and an
    IDENT with their value, every other type without one. *)
Definition lexer_token (t : Token) : bool :=
  match t with
  | TOther NUMBER | TOther IDENT => false
  | _ => true
  end.

(** ** Tactics *)

(** Membership of a given token type in a given list of them. *)
Ltac decide_mem := apply (bool_decide_unpack _); by vm_compute.

(** The two operators a hypothesis [op ∈ [o1; o2]] leaves. *)
Ltac either_op H :=
  rewrite !elem_of_cons, elem_of_nil in H; destruct H as [->|[->|[]]].

(** * Properties *)

(** ** The machine *)

Lemma run_app (c1 c2 : list Op.instr) (vm : VM) :
  run (c1 ++ c2) vm =
  match run c1 vm with
  | Done vm' => run c2 vm'
  | Fail e vm' => Fail e vm'
  end.
Proof.
  revert vm. induction c1 as [|i c1 IH]; intros vm; simpl; [done|].
  destruct (step i vm); [apply IH | done].
Qed.

Lemma run_single (i : Op.instr) (vm : VM) : run [i] vm = step i vm.
Proof. simpl. by destruct (step i vm). Qed.

Lemma ops_operator (op : token_type) :
  is_operator op = true -> exists i, ops op = Ok i /\
    forall a b rest vs out,
      step i (mkVM (b :: a :: rest) vs out) =
      match arith op a b with
      | Some v => Done (mkVM (v :: rest) vs out)
      | None => Fail ZeroDivisionError (mkVM rest vs out)
      end.
Proof.
  destruct op; simpl; try discriminate; intros _; eexists; (split; [reflexivity|]);
    intros a b rest vs out; simpl; try reflexivity.
  by destruct (decide (b = 0)).
Qed.

(** ** The code generator *)

Lemma gen_expr (e : node) :
  is_expr e = true ->
  exists c, (forall bc, gen e bc = Ok (bc ++ c)) /\ computes c e.
Proof.
  induction e as [v|x|op l IHl r IHr| | |]; simpl; try discriminate.
  - intros _. exists [Op.PUSH v]. split; [done|]. intros vm. done.
  - intros _. exists [Op.LOAD x]. split; [done|]. intros vm. simpl.
    destruct (vars vm !! x) as [v|] eqn:E; [done|].
    exists (KeyError x), vm. eauto.
  - intros H. apply andb_prop in H as [H Hr]. apply andb_prop in H as [Hop Hl].
    destruct (IHl Hl) as (cl & Gl & Rl). destruct (IHr Hr) as (cr & Gr & Rr).
    destruct (ops_operator op Hop) as (i & Hi & Si).
    exists (cl ++ cr ++ [i]). split.
    + intros bc. rewrite Gl. simpl. rewrite Gr. simpl. rewrite Hi. simpl.
      by rewrite <- !app_assoc.
    + intros vm. simpl. rewrite !run_app. specialize (Rl vm).
      destruct (eval (vars vm) l) as [a|]; simpl.
      * rewrite Rl, run_app. specialize (Rr (push a vm)).
        change (vars (push a vm)) with (vars vm) in Rr.
        destruct (eval (vars vm) r) as [b|].
        -- rewrite Rr, run_single. unfold push. simpl. rewrite Si.
           destruct (arith op a b) as [v|]; [done|].
           eexists _, _. split; [reflexivity|]. simpl. eauto.
        -- destruct Rr as (ex & vm' & -> & Hex & Hout). simpl. eauto.
      * destruct Rl as (ex & vm' & -> & Hex & Hout). eauto.
Qed.

(** What the code of a statement does, against [exec_stmt]. *)
Lemma gen_stmt (s : node) :
  is_stmt s = true ->
  exists c, (forall bc, gen s bc = Ok (bc ++ c)) /\
    forall rest vs out,
      match exec_stmt s (vs, out) with
      | Some (vs', out') =>
          run c (mkVM rest vs out) = Done (mkVM rest vs' out')
      | None => exists ex vm', run c (mkVM rest vs out) = Fail ex vm' /\
                  (ex = ZeroDivisionError \/ exists n, ex = KeyError n) /\
                  stdout vm' = out
      end.
Proof.
  destruct s as [| | |x e|e|]; simpl; try discriminate; intros He;
    destruct (gen_expr e He) as (c & G & R).
  - exists (c ++ [Op.STORE x]). split.
    + intros bc. rewrite G. simpl. by rewrite <- app_assoc.
    + intros rest vs out. rewrite run_app. specialize (R (mkVM rest vs out)).
      simpl in R. destruct (eval vs e) as [v|]; simpl.
      * by rewrite R.
      * destruct R as (ex & vm' & -> & Hex & Hout). eauto.
  - exists (c ++ [Op.PRINT]). split.
    + intros bc. rewrite G. simpl. by rewrite <- app_assoc.
    + intros rest vs out. rewrite run_app. specialize (R (mkVM rest vs out)).
      simpl in R. destruct (eval vs e) as [v|]; simpl.
      * by rewrite R.
      * destruct R as (ex & vm' & -> & Hex & Hout). eauto.
Qed.

(** The code of a program: it is generated, it follows [exec], and it
    never pops the empty stack, from whatever machine it starts. *)
Lemma gen_program (ast : list node) :
  forallb is_stmt ast = true ->
  exists c, (forall bc, gen_all ast bc = Ok (bc ++ c)) /\
    (forall vm, no_underflow (run c vm)) /\
    (forall rest vs out vs' out',
        exec ast (vs, out) = Some (vs', out') ->
        run c (mkVM rest vs out) = Done (mkVM rest vs' out')).
Proof.
  induction ast as [|s ast IH]; simpl.
  - intros _. exists []. split; [intros bc; by rewrite app_nil_r|]. split.
    + intros vm. exact I.
    + intros rest vs out vs' out' [= -> ->]. done.
  - intros H. apply andb_prop in H as [Hs Hast].
    destruct (gen_stmt s Hs) as (c1 & G1 & R1). destruct (IH Hast) as (c2 & G2 & U2 & R2).
    exists (c1 ++ c2). split; [|split].
    + intros bc. rewrite G1. simpl. rewrite G2. by rewrite <- app_assoc.
    + intros [st vs out]. rewrite run_app. specialize (R1 st vs out).
      destruct (exec_stmt s (vs, out)) as [[vs' out']|].
      * rewrite R1. apply U2.
      * destruct R1 as (ex & vm' & -> & [->|[n ->]] & _); simpl; done.
    + intros rest vs out vs' out' E. rewrite run_app. specialize (R1 rest vs out).
      destruct (exec_stmt s (vs, out)) as [[vs1 out1]|]; simpl in E; [|done].
      rewrite R1. by apply R2.
Qed.

(** ** Fuel: more of it never changes a result *)

Lemma below_refl {A : Type} (r : result A) : below r r.
Proof. by intros _. Qed.

Lemma below_bind {A B : Type} (r r' : result A) (k k' : A -> result B) :
  below r r' -> (forall a, below (k a) (k' a)) -> below (r ≫= k) (r' ≫= k').
Proof.
  intros Hr Hk. destruct r as [a|e|].
  - rewrite Hr by done. apply Hk.
  - rewrite Hr by done. apply below_refl.
  - intros H. by destruct H.
Qed.

Lemma while_op_below ops (sub sub' : Parser -> result (node * Parser)) f f' nd p :
  (forall q, below (sub q) (sub' q)) -> (f <= f')%nat ->
  below (while_op ops sub f nd p) (while_op ops sub' f' nd p).
Proof.
  intros Hsub. revert f' nd p. induction f as [|f IH]; intros f' nd p Hle.
  - intros H. by destruct H.
  - destruct f' as [|f']; [lia|]. simpl.
    destruct (bool_decide _); [|apply below_refl].
    apply below_bind; [apply below_refl|]. intros p1.
    apply below_bind; [apply Hsub|]. intros [r p2]. apply IH. lia.
Qed.

Lemma term_with_below (sub sub' : Parser -> result (node * Parser)) f f' p :
  (forall q, below (sub q) (sub' q)) -> (f <= f')%nat ->
  below (term_with sub f p) (term_with sub' f' p).
Proof.
  intros Hsub Hle. apply below_bind; [apply Hsub|].
  intros [nd p1]. by apply while_op_below.
Qed.

Lemma expr_with_below (sub sub' : Parser -> result (node * Parser)) f f' p :
  (forall q, below (sub q) (sub' q)) -> (f <= f')%nat ->
  below (expr_with sub f p) (expr_with sub' f' p).
Proof.
  intros Hsub Hle. apply below_bind; [by apply term_with_below|].
  intros [nd p1]. apply while_op_below; [|done].
  intros q. by apply term_with_below.
Qed.

Lemma factor_below f f' p : (f <= f')%nat -> below (factor f p) (factor f' p).
Proof.
  revert f' p. induction f as [|f IH]; intros f' p Hle.
  - intros H. by destruct H.
  - destruct f' as [|f']; [lia|]. simpl.
    destruct (token p) as [| |[]]; try apply below_refl.
    apply below_bind; [apply below_refl|]. intros p1.
    apply below_bind; [|intros [nd p2]; apply below_refl].
    apply expr_with_below; [|lia]. intros q. apply IH. lia.
Qed.

Lemma expr_below f f' p : (f <= f')%nat -> below (expr f p) (expr f' p).
Proof.
  intros Hle. apply expr_with_below; [|done]. intros q. by apply factor_below.
Qed.

Lemma statement_below f f' p :
  (f <= f')%nat -> below (statement f p) (statement f' p).
Proof.
  intros Hle. unfold statement.
  destruct (token p) as [| |[]]; try apply below_refl.
  - apply below_bind; [apply below_refl|]. intros p1.
    apply below_bind; [apply below_refl|]. intros p2.
    apply below_bind; [by apply expr_below|]. intros [e p3]. apply below_refl.
  - apply below_bind; [apply below_refl|]. intros p1.
    apply below_bind; [by apply expr_below|]. intros [e p3]. apply below_refl.
Qed.

Lemma parse_loop_below f f' n n' acc p :
  (f <= f')%nat -> (n <= n')%nat ->
  below (parse_loop f n acc p) (parse_loop f' n' acc p).
Proof.
  intros Hle. revert n' acc p. induction n as [|n IH]; intros n' acc p Hn.
  - intros H. by destruct H.
  - destruct n' as [|n']; [lia|]. simpl.
    destruct (decide _); [|apply below_refl].
    apply below_bind; [by apply statement_below|]. intros [s p1]. apply IH. lia.
Qed.

Lemma compile_below f f' source :
  (f <= f')%nat -> below (compile f source) (compile f' source).
Proof.
  intros Hle. unfold compile.
  apply below_bind; [apply below_refl|]. intros p.
  apply below_bind; [by apply parse_loop_below|]. intros [ast p']. apply below_refl.
Qed.

(** A call that finishes within some fuel is the same call with more. *)
Lemma run_compiler_from_more out f f' source :
  (f <= f')%nat -> run_compiler_from out f source <> Unfinished ->
  run_compiler_from out f' source = run_compiler_from out f source.
Proof.
  intros Hle. unfold run_compiler_from. intros H.
  rewrite (compile_below f f' source Hle); [done|].
  intros E. rewrite E in H. done.
Qed.

(** ** The parser on the token streams of the grammar *)

Lemma eat_advance ty p : type (token p) = ty -> eat ty p = advance p.
Proof. intros H. unfold eat, advance. by rewrite decide_True. Qed.

Lemma feeds_head p ts : feeds p ts -> type (token p) = head_type ts.
Proof. by destruct 1. Qed.

Lemma feeds_cons_inv p t ts :
  feeds p (t :: ts) ->
  token p = t /\ exists p', advance p = Ok p' /\ feeds p' ts.
Proof. inversion 1; subst. eauto. Qed.

Lemma while_op_exit ops sub fuel nd p :
  type (token p) ∉ ops -> while_op ops sub (S fuel) nd p = Ok (nd, p).
Proof. intros H. simpl. by rewrite bool_decide_eq_false_2. Qed.

Lemma while_op_round ops sub fuel nd p p1 r p2 :
  type (token p) ∈ ops -> advance p = Ok p1 -> sub p1 = Ok (r, p2) ->
  while_op ops sub (S fuel) nd p =
  while_op ops sub fuel (binop (type (token p)) nd r) p2.
Proof.
  intros Hin Hadv Hsub. simpl. rewrite bool_decide_eq_true_2 by done.
  rewrite eat_advance by done. rewrite Hadv. simpl. by rewrite Hsub.
Qed.

Lemma absorbs_done ops sub p e p' m g :
  absorbs ops sub p e p' m -> type (token p') ∉ ops -> (m < g)%nat ->
  ('(x, p1) ← sub p; while_op ops sub g x p1) = Ok (e, p').
Proof.
  intros Habs Hout Hlt. replace g with (m + S (g - m - 1))%nat by lia.
  rewrite Habs. by apply while_op_exit.
Qed.

Lemma absorbs_operand ops sub p e p' :
  sub p = Ok (e, p') -> absorbs ops sub p e p' 0.
Proof. intros H fuel. by rewrite H. Qed.

Lemma absorbs_round ops sub p l p1 m p2 r p3 :
  absorbs ops sub p l p1 m -> type (token p1) ∈ ops ->
  advance p1 = Ok p2 -> sub p2 = Ok (r, p3) ->
  absorbs ops sub p (binop (type (token p1)) l r) p3 (S m).
Proof.
  intros Habs Hin Hadv Hsub fuel.
  replace (S m + fuel)%nat with (m + S fuel)%nat by lia.
  rewrite Habs. by apply while_op_round with p2.
Qed.

Lemma derives_parses lay ts e : derives lay ts e -> parses lay ts e.
Proof.
  induction 1 as [n|x|ts e _ IH|ts e _ IH|op ts1 ts2 l r Hop _ IHl _ IHr
                 |ts e _ IH|op ts1 ts2 l r Hop _ IHl _ IHr]; intros p rest Hp.
  - (* NUMBER *)
    apply feeds_cons_inv in Hp as (Ht & p' & Hadv & Hp').
    exists p', 1%nat. split; [done|]. intros [|g] Hg; [lia|]. simpl.
    rewrite Ht, eat_advance by by rewrite Ht. by rewrite Hadv.
  - (* IDENT *)
    apply feeds_cons_inv in Hp as (Ht & p' & Hadv & Hp').
    exists p', 1%nat. split; [done|]. intros [|g] Hg; [lia|]. simpl.
    rewrite Ht, eat_advance by by rewrite Ht. by rewrite Hadv.
  - (* '(' expr ')' *)
    simpl in Hp. apply feeds_cons_inv in Hp as (Ht & p1 & Hadv1 & Hp1).
    rewrite <- app_assoc in Hp1. simpl in Hp1.
    destruct (IH p1 _ Hp1) as (p2 & n & m & Hp2 & Habs); [simpl; decide_mem|].
    pose proof (feeds_head _ _ Hp2) as Hty. simpl in Hty.
    apply feeds_cons_inv in Hp2 as (Ht2 & p3 & Hadv3 & Hp3).
    exists p3, (S (n + S m)). split; [done|]. intros [|g] Hg; [lia|]. simpl.
    rewrite Ht, eat_advance by by rewrite Ht. rewrite Hadv1. simpl.
    unfold expr_with.
    rewrite (absorbs_done _ _ p1 e p2 m g); [|apply Habs; lia|rewrite Hty; decide_mem|lia].
    simpl. rewrite eat_advance by done. by rewrite Hadv3.
  - (* term := factor *)
    destruct (IH p rest Hp) as (p' & n & Hp' & Hf).
    exists p', n, 0%nat. split; [done|]. intros g Hg.
    apply absorbs_operand. by apply Hf.
  - (* term := term op factor *)
    rewrite <- app_assoc in Hp. simpl in Hp.
    destruct (IHl p _ Hp) as (p1 & n1 & m1 & Hp1 & Habs).
    apply feeds_cons_inv in Hp1 as (Ht & p2 & Hadv & Hp2).
    destruct (IHr p2 rest Hp2) as (p3 & n2 & Hp3 & Hf).
    exists p3, (n1 + n2)%nat, (S m1). split; [done|]. intros g Hg.
    replace op with (type (token p1)) by by rewrite Ht.
    eapply absorbs_round; [apply Habs; lia|by rewrite Ht|done|apply Hf; lia].
  - (* expr := term *)
    intros Hrest. destruct (IH p rest Hp) as (p' & n & m & Hp' & Habs).
    exists p', (n + S m)%nat, 0%nat. split; [done|]. intros g Hg.
    apply absorbs_operand. unfold term_with.
    apply absorbs_done with m; [apply Habs; lia| |lia].
    by rewrite (feeds_head _ _ Hp').
  - (* expr := expr op term *)
    intros Hrest. rewrite <- app_assoc in Hp. simpl in Hp.
    destruct (IHl p _ Hp) as (p1 & n1 & m1 & Hp1 & Habs);
      [simpl; either_op Hop; decide_mem|].
    apply feeds_cons_inv in Hp1 as (Ht & p2 & Hadv & Hp2).
    destruct (IHr p2 rest Hp2) as (p3 & n2 & m2 & Hp3 & Habs2).
    exists p3, (n1 + n2 + S m2)%nat, (S m1). split; [done|]. intros g Hg.
    replace op with (type (token p1)) by by rewrite Ht.
    eapply absorbs_round; [apply Habs; lia|by rewrite Ht|done|].
    unfold term_with. apply absorbs_done with m2; [apply Habs2; lia| |lia].
    by rewrite (feeds_head _ _ Hp3).
Qed.

Lemma expr_complete ts e p rest :
  derives Expr ts e -> feeds p (ts ++ rest) ->
  head_type rest ∉ [PLUS; MINUS; TIMES; DIVIDE] ->
  exists p' n, feeds p' rest /\ forall g, (n <= g)%nat -> expr g p = Ok (e, p').
Proof.
  intros Hd Hp Hrest. apply derives_parses in Hd.
  destruct (Hd p rest Hp) as (p' & n & m & Hp' & Habs).
  { intros H. apply Hrest. rewrite !elem_of_cons in *. tauto. }
  exists p', (n + S m)%nat. split; [done|]. intros g Hg.
  unfold expr, expr_with. apply absorbs_done with m; [apply Habs; lia| |lia].
  rewrite (feeds_head _ _ Hp'). intros H. apply Hrest.
  rewrite !elem_of_cons in *. tauto.
Qed.

Lemma statement_complete ts s p rest :
  derives_stmt ts s -> feeds p (ts ++ rest) ->
  head_type rest ∉ [PLUS; MINUS; TIMES; DIVIDE] ->
  exists p' n, feeds p' rest /\ forall g, (n <= g)%nat -> statement g p = Ok (s, p').
Proof.
  intros [x ts' e Hd|ts' e Hd] Hp Hrest; simpl in Hp.
  - apply feeds_cons_inv in Hp as (Ht & p1 & Hadv1 & Hp1).
    apply feeds_cons_inv in Hp1 as (Ht1 & p2 & Hadv2 & Hp2).
    destruct (expr_complete _ _ _ _ Hd Hp2 Hrest) as (p' & n & Hp' & He).
    exists p', n. split; [done|]. intros g Hg. unfold statement.
    rewrite Ht, eat_advance by by rewrite Ht. rewrite Hadv1. simpl.
    rewrite eat_advance by by rewrite Ht1. rewrite Hadv2. simpl.
    by rewrite He.
  - apply feeds_cons_inv in Hp as (Ht & p1 & Hadv1 & Hp1).
    destruct (expr_complete _ _ _ _ Hd Hp1 Hrest) as (p' & n & Hp' & He).
    exists p', n. split; [done|]. intros g Hg. unfold statement.
    rewrite Ht, eat_advance by by rewrite Ht. rewrite Hadv1. simpl.
    by rewrite He.
Qed.

Lemma derives_stmt_head ts s rest :
  derives_stmt ts s -> head_type (ts ++ rest) ∈ [IDENT; PRINT].
Proof. destruct 1; simpl; decide_mem. Qed.

Lemma derives_program_head ts ast :
  derives_program ts ast -> head_type ts ∈ [EOF; IDENT; PRINT].
Proof.
  destruct 1 as [|ts1 ts2 s ast Hs _]; [decide_mem|].
  apply (derives_stmt_head _ _ ts2) in Hs. rewrite !elem_of_cons in *. tauto.
Qed.

Lemma program_complete ts ast :
  derives_program ts ast -> forall p, feeds p ts ->
  exists p' n m, forall g, (n <= g)%nat -> forall acc k,
    parse_loop g (m + S k) acc p = Ok (acc ++ ast, p').
Proof.
  induction 1 as [|ts1 ts2 s ast Hs Hast IH]; intros p Hp.
  - exists p, 0%nat, 0%nat. intros g _ acc k. simpl.
    rewrite decide_False; [by rewrite app_nil_r|].
    intros H. apply H. by apply feeds_head in Hp.
  - destruct (statement_complete _ _ _ _ Hs Hp) as (p1 & n1 & Hp1 & Hst).
    { apply derives_program_head in Hast. intros H.
      rewrite !elem_of_cons, elem_of_nil in *.
      destruct Hast as [E|[E|[E|[]]]]; rewrite E in H; intuition discriminate. }
    destruct (IH p1 Hp1) as (p' & n2 & m & Hloop).
    exists p', (n1 + n2)%nat, (S m). intros g Hg acc k. simpl.
    rewrite decide_True.
    + rewrite Hst by lia. simpl. rewrite Hloop by lia. by rewrite <- app_assoc.
    + rewrite (feeds_head _ _ Hp).
      pose proof (derives_stmt_head _ _ ts2 Hs) as H.
      rewrite !elem_of_cons, elem_of_nil in H.
      intros E. rewrite E in H. intuition discriminate.
Qed.

Lemma compile_complete source ts ast :
  lexes source ts -> derives_program ts ast ->
  exists n, forall g, (n <= g)%nat -> compile g source = gen_all ast [].
Proof.
  intros (p & Hinit & Hp) Hd.
  destruct (program_complete _ _ Hd p Hp) as (p' & n & m & Hloop).
  exists (n + S m)%nat. intros g Hg. unfold compile, parse. rewrite Hinit. simpl.
  replace g with (m + S (g - m - 1))%nat at 2 by lia.
  rewrite Hloop by lia. done.
Qed.

Lemma derives_is_expr lay ts e : derives lay ts e -> is_expr e = true.
Proof.
  induction 1 as [| | | |op ? ? ? ? Hop _ IHl _ IHr| |op ? ? ? ? Hop _ IHl _ IHr];
    simpl; try done; rewrite IHl, IHr; by either_op Hop.
Qed.

Lemma derives_program_is_stmt ts ast :
  derives_program ts ast -> forallb is_stmt ast = true.
Proof.
  induction 1 as [|ts1 ts2 s ast Hs _ IH]; simpl; [done|]. rewrite IH.
  destruct Hs as [x ts e He|ts e He]; simpl;
    by rewrite (derives_is_expr _ _ _ He).
Qed.

Lemma stream_feeds fuel p ts : stream fuel p = Ok ts -> feeds p ts.
Proof.
  revert p ts. induction fuel as [|fuel IH]; intros p ts; simpl; [done|].
  destruct (decide (type (token p) = EOF)) as [E|E].
  - intros [= <-]. by constructor.
  - destruct (advance p) as [p'| |] eqn:Hadv; simpl; try done.
    destruct (stream fuel p') as [ts'| |] eqn:Hs; simpl; try done.
    intros [= <-]. apply feeds_token with p'; auto.
Qed.

Lemma tokenize_lexes fuel source ts : tokenize fuel source = Ok ts -> lexes source ts.
Proof.
  unfold tokenize, lexes.
  destruct (Parser_init (mkLexer source 0)) as [p| |]; simpl; try done.
  intros H. exists p. split; [done|]. by apply stream_feeds with fuel.
Qed.

(** A valid program that the reference semantics runs to the end is
    compiled and run to the end, with the same lines printed. *)
Lemma pipeline_correct out source ts ast vs out' :
  lexes source ts -> derives_program ts ast ->
  exec ast (∅, out) = Some (vs, out') ->
  exists n, forall fuel, (n <= fuel)%nat ->
    run_compiler_from out fuel source = Returned out'.
Proof.
  intros Hlex Hd Hexec.
  destruct (compile_complete _ _ _ Hlex Hd) as (n & Hc).
  destruct (gen_program ast (derives_program_is_stmt _ _ Hd)) as (c & Hg & _ & Hrun).
  exists n. intros fuel Hfuel. unfold run_compiler_from.
  rewrite (Hc fuel Hfuel), Hg. simpl.
  unfold VM_init. by rewrite (Hrun [] ∅ out vs out' Hexec).
Qed.

(** What a call returns at some fuel it returns at any larger one. *)
Lemma run_compiler_at n fuel source r :
  run_compiler n source = r -> r <> Unfinished -> (n <= fuel)%nat ->
  run_compiler fuel source = r.
Proof.
  intros <- Hr Hle. by apply run_compiler_from_more.
Qed.

Lemma step_keeps_unbound i n vm vm' :
  i <> Op.STORE n -> step i vm = Done vm' ->
  vars vm !! n = None -> vars vm' !! n = None.
Proof.
  intros Hi Hstep Hn. destruct i as [v|x|x| | | | |]; simpl in Hstep.
  - by injection Hstep as <-.
  - destruct (vars vm !! x); [|done]. by injection Hstep as <-.
  - destruct (stack vm) as [|v rest]; [done|]. injection Hstep as <-. simpl.
    rewrite lookup_insert_ne; [done|]. congruence.
  - unfold binary in Hstep. destruct (stack vm) as [|b [|a rest]]; try done.
    by injection Hstep as <-.
  - unfold binary in Hstep. destruct (stack vm) as [|b [|a rest]]; try done.
    by injection Hstep as <-.
  - unfold binary in Hstep. destruct (stack vm) as [|b [|a rest]]; try done.
    by injection Hstep as <-.
  - destruct (stack vm) as [|b [|a rest]]; try done.
    destruct (decide (b = 0)); [done|]. by injection Hstep as <-.
  - destruct (stack vm) as [|v rest]; [done|]. by injection Hstep as <-.
Qed.

Lemma run_keeps_unbound c n vm vm' :
  Op.STORE n ∉ c -> run c vm = Done vm' ->
  vars vm !! n = None -> vars vm' !! n = None.
Proof.
  revert vm. induction c as [|i c IH]; intros vm Hc Hrun Hn; simpl in Hrun.
  - by injection Hrun as <-.
  - apply not_elem_of_cons in Hc as [Hi Hc].
    destruct (step i vm) as [vm1|] eqn:Hstep; [|done].
    apply (IH vm1 Hc Hrun). eapply step_keeps_unbound; eauto.
Qed.

(** ** Whatever the source, the parser returns shaped nodes *)

Lemma while_op_shaped ops sub fuel nd p e p' :
  (forall op, op ∈ ops -> is_operator op = true) ->
  (forall q r q', sub q = Ok (r, q') -> expr_shaped r = true) ->
  expr_shaped nd = true ->
  while_op ops sub fuel nd p = Ok (e, p') -> expr_shaped e = true.
Proof.
  intros Hops Hsub. revert nd p. induction fuel as [|fuel IH]; intros nd p Hnd; simpl; [done|].
  destruct (bool_decide (type (token p) ∈ ops)) eqn:Hin.
  - apply bool_decide_eq_true_1 in Hin.
    destruct (eat (type (token p)) p) as [p1| |]; simpl; try done.
    destruct (sub p1) as [[r p2]| |] eqn:Hr; simpl; try done.
    apply IH. simpl. by rewrite (Hops _ Hin), Hnd, (Hsub _ _ _ Hr).
  - by intros [= <- <-].
Qed.

Lemma term_with_shaped sub fuel p e p' :
  (forall q r q', sub q = Ok (r, q') -> expr_shaped r = true) ->
  term_with sub fuel p = Ok (e, p') -> expr_shaped e = true.
Proof.
  intros Hsub. unfold term_with.
  destruct (sub p) as [[nd p1]| |] eqn:Hnd; simpl; try done.
  apply while_op_shaped; [|done|by apply (Hsub _ _ _ Hnd)].
  intros op Hop. by either_op Hop.
Qed.

Lemma expr_with_shaped sub fuel p e p' :
  (forall q r q', sub q = Ok (r, q') -> expr_shaped r = true) ->
  expr_with sub fuel p = Ok (e, p') -> expr_shaped e = true.
Proof.
  intros Hsub. unfold expr_with.
  destruct (term_with sub fuel p) as [[nd p1]| |] eqn:Hnd; simpl; try done.
  apply while_op_shaped.
  - intros op Hop. by either_op Hop.
  - intros q r q'. by apply term_with_shaped.
  - by apply (term_with_shaped _ _ _ _ _ Hsub Hnd).
Qed.

Lemma factor_shaped fuel p e p' :
  factor fuel p = Ok (e, p') -> expr_shaped e = true.
Proof.
  revert p e p'. induction fuel as [|fuel IH]; intros p e p'; simpl; [done|].
  destruct (token p) as [v|x|[]]; try by intros [= <- <-].
  - destruct (eat NUMBER p); simpl; try done. by intros [= <- <-].
  - destruct (eat IDENT p); simpl; try done. by intros [= <- <-].
  - destruct (eat LPAREN p) as [p1| |]; simpl; try done.
    destruct (expr_with (factor fuel) fuel p1) as [[nd p2]| |] eqn:He; simpl; try done.
    destruct (eat RPAREN p2); simpl; try done. intros [= <- <-].
    by apply (expr_with_shaped _ _ _ _ _ IH He).
Qed.

Lemma statement_shaped fuel p s p' :
  statement fuel p = Ok (s, p') -> stmt_shaped s = true.
Proof.
  unfold statement. destruct (token p) as [v|x|[]]; try by intros [= <- <-].
  - destruct (eat IDENT p) as [p1| |]; simpl; try done.
    destruct (eat ASSIGN p1) as [p2| |]; simpl; try done.
    destruct (expr fuel p2) as [[e p3]| |] eqn:He; simpl; try done.
    intros [= <- <-]. simpl. apply (expr_with_shaped _ _ _ _ _ (factor_shaped fuel) He).
  - destruct (eat PRINT p) as [p1| |]; simpl; try done.
    destruct (expr fuel p1) as [[e p3]| |] eqn:He; simpl; try done.
    intros [= <- <-]. simpl. apply (expr_with_shaped _ _ _ _ _ (factor_shaped fuel) He).
Qed.

Lemma parse_loop_shaped fuel n acc p ast p' :
  forallb stmt_shaped acc = true ->
  parse_loop fuel n acc p = Ok (ast, p') -> forallb stmt_shaped ast = true.
Proof.
  revert acc p. induction n as [|n IH]; intros acc p Hacc; simpl; [done|].
  destruct (decide (type (token p) <> EOF)); [|by intros [= <- <-]].
  destruct (statement fuel p) as [[s p1]| |] eqn:Hs; simpl; try done.
  apply IH. rewrite forallb_app, Hacc. simpl. by rewrite (statement_shaped _ _ _ _ Hs).
Qed.

(** A shaped node is a proper one, or its code generation fails on the
    [None] inside it. *)
Lemma gen_expr_shaped e :
  expr_shaped e = true ->
  is_expr e = true \/ forall bc, gen e bc = Raise TypeError.
Proof.
  induction e as [v|x|op l IHl r IHr| | |]; simpl; try done; try (by left); [|by right].
  intros [[Hop Hl]%andb_prop Hr]%andb_prop. rewrite Hop. simpl.
  destruct (IHl Hl) as [Il|Tl]; [|right; intros bc; by rewrite Tl].
  destruct (gen_expr l Il) as (cl & Gl & _).
  destruct (IHr Hr) as [Ir|Tr]; [left; by rewrite Il, Ir|].
  right. intros bc. rewrite Gl. simpl. by rewrite Tr.
Qed.

Lemma gen_stmt_shaped s :
  stmt_shaped s = true ->
  is_stmt s = true \/ forall bc, gen s bc = Raise TypeError.
Proof.
  destruct s as [| | |x e|e|]; simpl; try done; [| |by right]; intros He;
    (destruct (gen_expr_shaped e He) as [Ie|Te]; [by left|]);
    right; intros bc; by rewrite Te.
Qed.

Lemma gen_all_shaped ast :
  forallb stmt_shaped ast = true ->
  forallb is_stmt ast = true \/ forall bc, gen_all ast bc = Raise TypeError.
Proof.
  induction ast as [|s ast IH]; simpl; [by left|].
  intros [Hs Hast]%andb_prop.
  destruct (gen_stmt_shaped s Hs) as [Is|Ts]; [|right; intros bc; by rewrite Ts].
  destruct (gen_stmt s Is) as (c & Gs & _).
  destruct (IH Hast) as [Iast|Tast]; [left; by rewrite Is, Iast|].
  right. intros bc. rewrite Gs. simpl. by rewrite Tast.
Qed.

Lemma compiled_code_no_underflow fuel source c vm :
  compile fuel source = Ok c -> no_underflow (run c vm).
Proof.
  unfold compile. destruct (Parser_init _) as [p| |]; simpl; try done.
  destruct (parse fuel p) as [[ast p']| |] eqn:Hp; simpl; try done.
  apply (parse_loop_shaped _ _ [] _ _ _ eq_refl) in Hp.
  destruct (gen_all_shaped ast Hp) as [Hast|Hast]; [|by rewrite Hast].
  destruct (gen_program ast Hast) as (c' & Hg & Hu & _). rewrite Hg.
  intros [= <-]. apply Hu.
Qed.

(** ** A statement that starts with a token [statement] has no branch for *)

Lemma parse_loop_stuck fuel n acc p :
  type (token p) <> EOF -> statement fuel p = Ok (None_, p) ->
  parse_loop fuel n acc p = OutOfFuel.
Proof.
  intros Hty Hst. revert acc. induction n as [|n IH]; intros acc; simpl; [done|].
  rewrite decide_True by done. rewrite Hst. simpl. apply IH.
Qed.

(** ** Standard output is only appended to *)

Lemma step_with_prefix out i st vs o :
  step i (mkVM st vs (out ++ o)) = outcome_with_prefix out (step i (mkVM st vs o)).
Proof.
  destruct i as [v|x|x| | | | |]; simpl; try done.
  - by destruct (vs !! x).
  - by destruct st.
  - unfold binary. simpl. by destruct st as [|b [|a rest]].
  - unfold binary. simpl. by destruct st as [|b [|a rest]].
  - unfold binary. simpl. by destruct st as [|b [|a rest]].
  - destruct st as [|b [|a rest]]; try done. by destruct (decide (b = 0)).
  - destruct st; [done|]. simpl. by rewrite app_assoc.
Qed.

Lemma run_with_prefix out c st vs o :
  run c (mkVM st vs (out ++ o)) = outcome_with_prefix out (run c (mkVM st vs o)).
Proof.
  revert st vs o. induction c as [|i c IH]; intros st vs o; simpl; [done|].
  rewrite step_with_prefix.
  destruct (step i (mkVM st vs o)) as [[st' vs' o']|e [st' vs' o']]; simpl; [|done].
  apply IH.
Qed.

(** ** The lexer *)

Lemma get_none s i : String.get i s = None <-> (String.length s <= i)%nat.
Proof.
  revert i. induction s as [|c s IH]; intros i; simpl.
  - split; [lia|done].
  - destruct i as [|i]; [split; [done|lia]|]. rewrite IH. lia.
Qed.

Lemma all_chars_get p s i c :
  all_chars p s = true -> String.get i s = Some c -> p c = true.
Proof.
  revert i. induction s as [|c0 s IH]; intros i; simpl; [done|].
  intros [H0 Hs]%andb_prop. destruct i as [|i]; [by intros [= <-]|]. by apply IH.
Qed.

Lemma get_all_chars p s :
  (forall i c, String.get i s = Some c -> p c = true) -> all_chars p s = true.
Proof.
  induction s as [|c0 s IH]; intros H; simpl; [done|].
  rewrite (H 0%nat c0 eq_refl). simpl. apply IH. intros i c Hi. by apply (H (S i)).
Qed.

Lemma advance_while_spec p txt fuel i :
  (String.length txt - i <= fuel)%nat ->
  (i <= advance_while p txt fuel i)%nat
  /\ (forall c, String.get (advance_while p txt fuel i) txt = Some c -> p c = false)
  /\ (forall j, (i <= j < advance_while p txt fuel i)%nat ->
        exists c, String.get j txt = Some c /\ p c = true).
Proof.
  revert i. induction fuel as [|fuel IH]; intros i Hfuel; simpl.
  - assert (String.get i txt = None) as E by (apply get_none; lia).
    split; [done|]. split; [intros c; by rewrite E|]. intros j Hj. lia.
  - destruct (String.get i txt) as [c|] eqn:E.
    + destruct (p c) eqn:Hp.
      * destruct (IH (S i)) as (H1 & H2 & H3); [lia|]. split; [lia|]. split; [done|].
        intros j Hj. destruct (decide (j = i)) as [->|Hne]; [eauto|].
        apply H3. lia.
      * split; [done|]. split; [intros c'; rewrite E; by intros [= <-]|].
        intros j Hj. lia.
    + split; [done|]. split; [intros c; by rewrite E|]. intros j Hj. lia.
Qed.

Lemma scan_stop p txt i c : String.get (scan p txt i) txt = Some c -> p c = false.
Proof. apply (advance_while_spec p txt _ i). lia. Qed.

Lemma scan_run p txt i j :
  (i <= j < scan p txt i)%nat -> exists c, String.get j txt = Some c /\ p c = true.
Proof. apply (advance_while_spec p txt _ i). lia. Qed.

Lemma scan_le p txt i : (i <= scan p txt i)%nat.
Proof. apply (advance_while_spec p txt _ i). lia. Qed.

Lemma scan_barrier p txt i k c :
  (i <= k)%nat -> String.get k txt = Some c -> p c = false -> (scan p txt i <= k)%nat.
Proof.
  intros Hik Hk Hp. destruct (decide (scan p txt i <= k)%nat) as [|Hgt]; [done|].
  destruct (scan_run p txt i k) as (c' & Hc' & Hp'); [lia|]. congruence.
Qed.

Lemma scan_gt p txt i c :
  String.get i txt = Some c -> p c = true -> (i < scan p txt i)%nat.
Proof.
  intros Hi Hp. pose proof (scan_le p txt i) as Hle.
  destruct (decide (scan p txt i = i)) as [E|]; [|lia].
  pose proof (scan_stop p txt i c) as Hs. rewrite E in Hs. specialize (Hs Hi). congruence.
Qed.

Lemma unknown_classes c :
  unknown c = true ->
  isdigit c = false /\ isalpha c = false /\ isspace c = false /\ is_op_char c = false.
Proof.
  unfold unknown. rewrite negb_true_iff, !orb_false_iff. tauto.
Qed.

Lemma ascii_digit_decimal c : isascii c = true -> isdigit c = true -> isdecimal c = true.
Proof. destruct c as [[] [] [] [] [] [] [] []]; by vm_compute. Qed.

Lemma ascii_alnum c : isascii c = true -> isalnum c = isalpha c || isdigit c.
Proof. destruct c as [[] [] [] [] [] [] [] []]; by vm_compute. Qed.

Lemma next_token_unknown txt i c :
  String.get (scan isspace txt i) txt = Some c -> unknown c = true ->
  next_token (mkLexer txt i) = Raise (Exception (unknown_character c)).
Proof.
  intros Hc (Hd & Ha & _ & Hop)%unknown_classes. unfold next_token. simpl.
  rewrite Hc, Hd, Ha. unfold is_op_char in Hop. rewrite !orb_false_iff in Hop.
  destruct Hop as ((((((-> & ->) & ->) & ->) & ->) & ->) & ->). done.
Qed.

Lemma int_digits_decimal s acc :
  all_chars isdecimal s = true -> exists n, int_digits acc s = Some n.
Proof.
  revert acc. induction s as [|c s IH]; intros acc; simpl; [eauto|].
  intros [-> Hs]%andb_prop. by apply IH.
Qed.

Lemma int_slice txt start stop :
  all_chars isascii txt = true -> (start < stop)%nat ->
  (forall j, (start <= j < stop)%nat ->
     exists c, String.get j txt = Some c /\ isdigit c = true) ->
  exists n, int (slice txt start stop) = Ok n.
Proof.
  intros Hascii Hlt Hrun. unfold int, slice.
  assert (Hall : all_chars isdecimal (substring start (stop - start) txt) = true).
  { apply get_all_chars. intros k c Hk.
    destruct (decide (k < stop - start)%nat) as [Hin|Hout].
    - rewrite substring_correct1 in Hk by done.
      destruct (Hrun (k + start)%nat) as (c' & Hc' & Hd); [lia|].
      rewrite Hk in Hc'. injection Hc' as <-.
      apply ascii_digit_decimal; [|done]. by apply (all_chars_get _ _ _ _ Hascii Hk).
    - rewrite substring_correct2 in Hk by lia. done. }
  destruct (int_digits_decimal _ 0 Hall) as (n & Hn). rewrite Hn.
  destruct (substring start (stop - start) txt) eqn:E; [|eauto].
  pose proof (substring_correct1 txt start (stop - start) 0) as H0.
  rewrite E in H0. destruct (Hrun start) as (c & Hc & _); [lia|].
  simpl in H0. rewrite Hc in H0. by specialize (H0 ltac:(lia)).
Qed.

(** Before the first unknown character of an ASCII text, a call of
    [next_token] either fails at that character or returns a token other
    than EOF and moves on, not past the character. *)
Lemma next_token_progress txt i c start :
  all_chars isascii txt = true ->
  String.get i txt = Some c -> unknown c = true ->
  (forall j c', (j < i)%nat -> String.get j txt = Some c' -> unknown c' = false) ->
  (start <= i)%nat ->
  next_token (mkLexer txt start) = Raise (Exception (unknown_character c))
  \/ exists t stop, next_token (mkLexer txt start) = Ok (t, mkLexer txt stop) /\
       type t <> EOF /\ (start < stop <= i)%nat.
Proof.
  intros Hascii Hi Hunk Hfirst Hstart.
  destruct (unknown_classes c Hunk) as (Hd & Ha & Hs & Hop).
  pose proof (scan_le isspace txt start) as Hle.
  pose proof (scan_barrier isspace txt start i c Hstart Hi Hs) as Hq.
  destruct (decide (scan isspace txt start = i)) as [E|Hne].
  { left. apply next_token_unknown; [by rewrite E|done]. }
  right. set (q := scan isspace txt start) in *.
  destruct (String.get q txt) as [c1|] eqn:Hc1.
  2:{ apply get_none in Hc1. assert (String.get i txt = None) by (apply get_none; lia).
      congruence. }
  pose proof (scan_stop isspace txt start c1 Hc1) as Hs1.
  pose proof (Hfirst q c1 ltac:(lia) Hc1) as Hk1.
  assert (Hasc : isascii c = true) by by apply (all_chars_get _ _ _ _ Hascii Hi).
  unfold next_token. simpl. fold q. rewrite Hc1.
  destruct (isdigit c1) eqn:Hd1.
  - pose proof (scan_gt isdigit txt q c1 Hc1 Hd1) as Hgt.
    pose proof (scan_barrier isdigit txt q i c ltac:(lia) Hi Hd) as Hbar.
    destruct (int_slice txt q (scan isdigit txt q) Hascii Hgt) as (n & Hn).
    { intros j Hj. by apply scan_run with q. }
    rewrite Hn. simpl. exists (TNumber n), (scan isdigit txt q).
    split; [done|]. split; [done|lia].
  - destruct (isalpha c1) eqn:Ha1.
    + assert (isalnum c1 = true) as Han by (unfold isalnum; by rewrite Ha1).
      assert (isalnum c = false) as Hcn by (rewrite ascii_alnum by done; by rewrite Ha, Hd).
      pose proof (scan_gt isalnum txt q c1 Hc1 Han) as Hgt.
      pose proof (scan_barrier isalnum txt q i c ltac:(lia) Hi Hcn) as Hbar.
      destruct (String.eqb _ _); eexists _, _; (split; [done|]); (split; [done|lia]).
    + assert (is_op_char c1 = true) as Hop1.
      { unfold unknown in Hk1. rewrite Hd1, Ha1, Hs1 in Hk1. simpl in Hk1.
        by apply negb_false_iff in Hk1. }
      unfold is_op_char in Hop1.
      repeat (destruct (Ascii.eqb c1 _);
              [eexists _, _; (split; [done|]); (split; [done|lia])|]).
      done.
Qed.

Lemma stream_reaches_unknown txt i c :
  all_chars isascii txt = true ->
  String.get i txt = Some c -> unknown c = true ->
  (forall j c', (j < i)%nat -> String.get j txt = Some c' -> unknown c' = false) ->
  forall k start t fuel,
    (start <= i)%nat -> (i - start < k)%nat -> (k <= fuel)%nat -> type t <> EOF ->
    stream fuel (mkParser (mkLexer txt start) t) =
    Raise (Exception (unknown_character c)).
Proof.
  intros Hascii Hi Hunk Hfirst. induction k as [|k IH]; intros start t fuel Hs Hk Hf Ht.
  - lia.
  - destruct fuel as [|fuel]; [lia|]. simpl. rewrite decide_False by done.
    unfold advance. simpl.
    destruct (next_token_progress txt i c start Hascii Hi Hunk Hfirst Hs)
      as [->|(t' & stop & -> & Ht' & Hstop)]; [done|].
    simpl. rewrite (IH stop t' fuel); [done|lia|lia|lia|done].
Qed.

Lemma tokenize_reaches_unknown txt i c :
  all_chars isascii txt = true ->
  String.get i txt = Some c -> unknown c = true ->
  (forall j c', (j < i)%nat -> String.get j txt = Some c' -> unknown c' = false) ->
  forall fuel, (i < fuel)%nat ->
    tokenize fuel txt = Raise (Exception (unknown_character c)).
Proof.
  intros Hascii Hi Hunk Hfirst fuel Hfuel. unfold tokenize, Parser_init.
  destruct (next_token_progress txt i c 0 Hascii Hi Hunk Hfirst ltac:(lia))
    as [->|(t' & stop & -> & Ht' & Hstop)]; [done|].
  simpl. apply (stream_reaches_unknown txt i c Hascii Hi Hunk Hfirst i); [lia|lia|lia|done].
Qed.

(** * The claims *)



(** The example input of the file itself prints the line [6] as well. *)
Example program_prints_6 fuel :
  (4 <= fuel)%nat -> run_compiler fuel program = Returned ["6"].
Proof.
  intros Hfuel. apply run_compiler_at with 4%nat; [by vm_compute|done|done].
Qed.

(** C2, on the code. On the input [1 = 2] the call of [parse] neither
    raises nor returns, whatever the fuel: [statement] has no branch for a
    NUMBER token, returns [None] without consuming it, and the loop of
    [parse] meets the same token again; the same happens at the tokens left
    over after a statement, as in [x = 1 )]; and on the input [print], a
    statement without its expression, [parse] returns the statement list
    [[('print', None)]] instead of failing. *)
Theorem parse_number_first_never_finishes :
  (forall fuel, run_compiler fuel "1 = 2" = Unfinished)
  /\ (forall fuel p, Parser_init (mkLexer "1 = 2" 0) = Ok p ->
        parse fuel p = OutOfFuel)
  /\ (forall fuel, run_compiler fuel "x = 1 )" = Unfinished)
  /\ (forall fuel, (2 <= fuel)%nat ->
        exists p p', Parser_init (mkLexer "print" 0) = Ok p /\
          parse fuel p = Ok ([print None_], p')).
Proof.
  assert (H1 : forall fuel p, Parser_init (mkLexer "1 = 2" 0) = Ok p ->
                 parse fuel p = OutOfFuel).
  { intros fuel p Hp. vm_compute in Hp. injection Hp as <-.
    apply parse_loop_stuck; done. }
  split; [|split; [done|split]].
  - intros fuel. unfold run_compiler, run_compiler_from, compile.
    pose proof (H1 fuel) as H.
    replace (Parser_init (mkLexer "1 = 2" 0))
      with (Ok (mkParser (mkLexer "1 = 2" 1) (TNumber 1))) in * by by vm_compute.
    simpl. by rewrite (H _ eq_refl).
  - intros [|fuel]; [done|].
    unfold run_compiler, run_compiler_from, compile, parse.
    replace (Parser_init (mkLexer "x = 1 )" 0))
      with (Ok (mkParser (mkLexer "x = 1 )" 1) (TIdent "x"))) by by vm_compute.
    simpl. destruct fuel as [|fuel]; [done|].
    replace (statement (S (S fuel)) (mkParser (mkLexer "x = 1 )" 1) (TIdent "x")))
      with (Ok (assign "x" (number 1), mkParser (mkLexer "x = 1 )" 7) (TOther RPAREN))).
    + simpl. by rewrite parse_loop_stuck.
    + symmetry. pose proof (statement_below 2 (S (S fuel))
        (mkParser (mkLexer "x = 1 )" 1) (TIdent "x"))) as Hb.
      unfold below in Hb. rewrite Hb; [by vm_compute|lia|by vm_compute].
  - intros fuel Hfuel. eexists _, _. split; [by vm_compute|].
    pose proof (parse_loop_below 2 fuel 2 fuel []
                  (mkParser (mkLexer "print" 5) (TOther PRINT))) as Hb.
    unfold below in Hb. unfold parse. rewrite Hb; [by vm_compute|lia|lia|by vm_compute].
Qed.

(** C3. The code generated for an expression node, run in a machine where
    the expression has a value, leaves that one value on top of the stack
    it found (one more entry than before) and the variable store and the
    output as they were; and the code generated for a sequence of statement
    nodes never pops the empty stack, whatever machine it starts in; nor
    does any bytecode that the pipeline compiles from a source text. *)
Theorem expression_code_pushes_one_value :
  (forall e vm v, is_expr e = true -> eval (vars vm) e = Some v ->
     exists c vm', gen e [] = Ok c /\ run c vm = Done vm' /\
       length (stack vm') = S (length (stack vm)) /\
       stack vm' = v :: stack vm /\
       vars vm' = vars vm /\ stdout vm' = stdout vm)
  /\ (forall ast, forallb is_stmt ast = true ->
        exists c, gen_all ast [] = Ok c /\
          forall vm e vm', run c vm = Fail e vm' -> e <> IndexError)
  /\ (forall fuel source c vm e vm',
        compile fuel source = Ok c -> run c vm = Fail e vm' -> e <> IndexError).
Proof.
  split; [|split].
  - intros e vm v He Hv. destruct (gen_expr e He) as (c & Hg & Hc).
    exists c, (push v vm). rewrite Hg. specialize (Hc vm). rewrite Hv in Hc.
    by rewrite Hc.
  - intros ast Hast. destruct (gen_program ast Hast) as (c & Hg & Hu & _).
    exists c. rewrite Hg. split; [done|]. intros vm e vm' Hrun.
    specialize (Hu vm). by rewrite Hrun in Hu.
  - intros fuel source c vm e vm' Hc Hrun.
    pose proof (compiled_code_no_underflow fuel source c vm Hc) as Hu.
    by rewrite Hrun in Hu.
Qed.

Lemma expression_code_pushes_one_value_witness :
  exists c vm', gen (binop MINUS (var "x") (number 5)) [] = Ok c /\
    run c (mkVM [9] {["x" := 11]} ["out"]) = Done vm' /\
    length (stack vm') = 2%nat /\ stack vm' = [6; 9] /\
    vars vm' = {["x" := 11]} /\ stdout vm' = ["out"].
Proof.
  pose proof (proj1 expression_code_pushes_one_value
                (binop MINUS (var "x") (number 5))
                (mkVM [9] {["x" := 11]} ["out"]) 6 eq_refl) as H.
  cbn [stack vars stdout length] in H. apply H. vm_compute. reflexivity.
Defined.

(** C4. A [LOAD n] run while [n] is unbound fails with the error that
    names [n] ([KeyError n], the machine's undefined-variable error), and
    pushes nothing and prints nothing; in a run from a fresh machine that is
    the case whenever no [STORE n] came before the load; and the source
    [print z] fails so, naming [z], with nothing printed. *)
Theorem load_of_unbound_name_fails :
  (forall n vm, vars vm !! n = None ->
     step (Op.LOAD n) vm = Fail (KeyError n) vm)
  /\ (forall pre post n out vm,
        Op.STORE n ∉ pre -> run pre (VM_init out) = Done vm ->
        run (pre ++ Op.LOAD n :: post) (VM_init out) = Fail (KeyError n) vm)
  /\ (forall fuel, (2 <= fuel)%nat ->
        run_compiler fuel "print z" = Escaped (KeyError "z") []).
Proof.
  split; [|split].
  - intros n vm Hn. simpl. by rewrite Hn.
  - intros pre post n out vm Hpre Hrun. rewrite run_app, Hrun. simpl.
    by rewrite (run_keeps_unbound pre n _ _ Hpre Hrun).
  - intros fuel Hfuel. apply run_compiler_at with 2%nat; [by vm_compute|done|done].
Qed.

Lemma load_of_unbound_name_fails_witness :
  run ([Op.PUSH 1; Op.STORE "x"; Op.LOAD "x"; Op.PRINT] ++ Op.LOAD "y" :: [Op.PRINT])
      (VM_init []) = Fail (KeyError "y") (mkVM [] {["x" := 1]} ["1"]).
Proof.
  apply (proj1 (proj2 load_of_unbound_name_fails)).
  - apply (bool_decide_unpack _). vm_compute. exact I.
  - vm_compute. reflexivity.
Defined.

(** C5. A [DIV] run with the value pushed last equal to zero fails with
    the machine's division-by-zero error and pushes no result: both
    operands are gone from the stack and nothing takes their place; the run
    stops there, so what follows in the bytecode is not executed. *)
Theorem division_by_zero_fails :
  (forall a rest vs out,
     step Op.DIV (mkVM (0 :: a :: rest) vs out) =
     Fail ZeroDivisionError (mkVM rest vs out))
  /\ (forall pre post vm a rest vs out,
        run pre vm = Done (mkVM (0 :: a :: rest) vs out) ->
        run (pre ++ Op.DIV :: post) vm = Fail ZeroDivisionError (mkVM rest vs out))
  /\ (forall fuel, (4 <= fuel)%nat ->
        run_compiler fuel "print 1 print 2 / 0 print 3" =
        Escaped ZeroDivisionError ["1"]).
Proof.
  split; [|split].
  - done.
  - intros pre post vm a rest vs out Hrun. by rewrite run_app, Hrun.
  - intros fuel Hfuel. apply run_compiler_at with 4%nat; [by vm_compute|done|done].
Qed.

Lemma division_by_zero_fails_witness :
  run ([Op.PUSH 7; Op.PUSH 5; Op.PUSH 0] ++ Op.DIV :: [Op.PRINT]) (VM_init []) =
  Fail ZeroDivisionError (mkVM [7] ∅ []).
Proof.
  apply (proj1 (proj2 division_by_zero_fails) _ _ _ 5). reflexivity.
Defined.

(** C6. For a nonzero divisor [DIV] pushes the floor of the quotient: the
    quotient [q] with [a = b * q + r] for a remainder [r] between zero and
    [b], zero included and [b] excluded, which is the rounding toward
    negative infinity; dividing -7 by 2 pushes -4; and the source
    [print 10 / 3] prints the one line [3]. *)
Theorem division_is_floor_division :
  (forall a b rest vs out, b <> 0 ->
     exists q r,
       step Op.DIV (mkVM (b :: a :: rest) vs out) = Done (mkVM (q :: rest) vs out) /\
       a = b * q + r /\ (0 <= r < b \/ b < r <= 0))
  /\ (forall rest vs out,
        step Op.DIV (mkVM (2 :: -7 :: rest) vs out) = Done (mkVM (-4 :: rest) vs out))
  /\ (forall fuel, (2 <= fuel)%nat ->
        run_compiler fuel "print 10 / 3" = Returned ["3"])
  /\ (forall fuel, (3 <= fuel)%nat ->
        run_compiler fuel "print (0 - 7) / 2" = Returned ["-4"]).
Proof.
  split; [|split; [|split]].
  - intros a b rest vs out Hb. exists (a `div` b), (a `mod` b). split; [|split].
    + simpl. by rewrite decide_False.
    + by apply Z.div_mod.
    + destruct (Z.lt_trichotomy b 0) as [H|[H|H]]; [right|done|left].
      * by apply Z.mod_neg_bound.
      * by apply Z.mod_pos_bound.
  - done.
  - intros fuel Hfuel. apply run_compiler_at with 2%nat; [by vm_compute|done|done].
  - intros fuel Hfuel. apply run_compiler_at with 3%nat; [by vm_compute|done|done].
Qed.

Lemma division_is_floor_division_witness :
  exists q r,
    step Op.DIV (mkVM [-3; 7] ∅ []) = Done (mkVM [q] ∅ []) /\
    7 = -3 * q + r /\ (0 <= r < -3 \/ -3 < r <= 0).
Proof.
  apply (proj1 division_is_floor_division 7 (-3) [] ∅ []). lia.
Defined.

(** C7. The code of [binop op l r] is the code of [l], then the code of
    [r], then the instruction of [op]; each arithmetic instruction, on a
    stack with [b] on top of [a], replaces the two by [a op b]; so the code
    of the node pushes [left op right], which for subtraction and division
    is not [right op left]. *)
Theorem binary_operation_order :
  (forall op l r, is_operator op = true -> is_expr l = true -> is_expr r = true ->
     exists cl cr i, gen l [] = Ok cl /\ gen r [] = Ok cr /\ ops op = Ok i /\
       gen (binop op l r) [] = Ok (cl ++ cr ++ [i]))
  /\ (forall a b rest vs out,
        step Op.ADD (mkVM (b :: a :: rest) vs out) = Done (mkVM (a + b :: rest) vs out) /\
        step Op.SUB (mkVM (b :: a :: rest) vs out) = Done (mkVM (a - b :: rest) vs out) /\
        step Op.MUL (mkVM (b :: a :: rest) vs out) = Done (mkVM (a * b :: rest) vs out) /\
        (b <> 0 ->
         step Op.DIV (mkVM (b :: a :: rest) vs out) = Done (mkVM (a `div` b :: rest) vs out)))
  /\ (forall op l r vm a b v,
        is_operator op = true -> is_expr l = true -> is_expr r = true ->
        eval (vars vm) l = Some a -> eval (vars vm) r = Some b ->
        arith op a b = Some v ->
        exists c, gen (binop op l r) [] = Ok c /\ run c vm = Done (push v vm))
  /\ (forall fuel, (2 <= fuel)%nat ->
        run_compiler fuel "print 7 - 2" = Returned ["5"] /\
        run_compiler fuel "print 7 / 2" = Returned ["3"]).
Proof.
  split; [|split; [|split]].
  - intros op l r Hop Hl Hr.
    destruct (gen_expr l Hl) as (cl & Gl & _). destruct (gen_expr r Hr) as (cr & Gr & _).
    destruct (ops_operator op Hop) as (i & Hi & _).
    exists cl, cr, i. simpl. rewrite !Gl. simpl. rewrite !Gr. simpl.
    rewrite Hi. simpl. by rewrite <- app_assoc.
  - intros a b rest vs out. repeat split. intros Hb. simpl. by rewrite decide_False.
  - intros op l r vm a b v Hop Hl Hr Ha Hb Hv.
    assert (He : is_expr (binop op l r) = true) by (simpl; by rewrite Hop, Hl, Hr).
    destruct (gen_expr _ He) as (c & Hg & Hc). exists c. rewrite Hg. split; [done|].
    specialize (Hc vm). simpl in Hc. rewrite Ha, Hb in Hc. simpl in Hc.
    by rewrite Hv in Hc.
  - intros fuel Hfuel.
    split; apply run_compiler_at with 2%nat; try done; by vm_compute.
Qed.

Lemma binary_operation_order_witness :
  exists c, gen (binop DIVIDE (var "a") (number 2)) [] = Ok c /\
    run c (mkVM [] {["a" := 7]} []) = Done (push 3 (mkVM [] {["a" := 7]} [])).
Proof.
  apply (proj1 (proj2 (proj2 binary_operation_order))
           DIVIDE (var "a") (number 2) (mkVM [] {["a" := 7]} []) 7 2 3);
    vm_compute; reflexivity.
Defined.






(** C10. [ADD], [SUB] and [MUL] push the exact integer sum, difference and
    product of their operands, whatever their magnitude: the operands are
    recovered from the result by the inverse operation, results exceed any
    given bound, and the product of 2^64 with itself is printed in full. *)
Theorem arithmetic_is_exact :
  (forall a b rest vs out,
     step Op.ADD (mkVM (b :: a :: rest) vs out) = Done (mkVM (a + b :: rest) vs out) /\
     step Op.SUB (mkVM (b :: a :: rest) vs out) = Done (mkVM (a - b :: rest) vs out) /\
     step Op.MUL (mkVM (b :: a :: rest) vs out) = Done (mkVM (a * b :: rest) vs out))
  /\ (forall bound, exists a b v,
        step Op.MUL (mkVM [b; a] ∅ []) = Done (mkVM [v] ∅ []) /\ bound < v)
  /\ (forall fuel, (2 <= fuel)%nat ->
        run_compiler fuel "print 18446744073709551616 * 18446744073709551616" =
        Returned ["340282366920938463463374607431768211456"]).
Proof.
  split; [|split].
  - done.
  - intros bound. exists (Z.abs bound + 1), 1, (Z.abs bound + 1). split.
    + simpl. unfold binary. simpl. by rewrite Z.mul_1_r.
    + lia.
  - intros fuel Hfuel. apply run_compiler_at with 2%nat; [by vm_compute|done|done].
Qed.

Lemma arithmetic_is_exact_witness :
  run_compiler 5 "print 18446744073709551616 * 18446744073709551616" =
  Returned ["340282366920938463463374607431768211456"].
Proof.
  apply (proj2 (proj2 arithmetic_is_exact) 5%nat). lia.
Defined.

(** * Further properties of the code *)

(** ** The lexer *)

Lemma scan_bound p txt i :
  (i <= String.length txt)%nat -> (scan p txt i <= String.length txt)%nat.
Proof.
  intros Hi. destruct (decide (scan p txt i <= String.length txt)%nat) as [|Hgt]; [done|].
  destruct (scan_run p txt i (String.length txt)) as (c & Hc & _); [lia|].
  assert (String.get (String.length txt) txt = None) as E by (by apply get_none).
  congruence.
Qed.

Lemma scan_fix p txt q :
  (forall c, String.get q txt = Some c -> p c = false) -> scan p txt q = q.
Proof.
  intros Hq. pose proof (scan_le p txt q) as Hle.
  destruct (decide (scan p txt q = q)) as [|Hne]; [done|].
  destruct (scan_run p txt q q) as (c & Hc & Hp); [lia|].
  rewrite (Hq c Hc) in Hp. done.
Qed.

Lemma scan_mid p txt i j :
  (i <= j <= scan p txt i)%nat -> scan p txt j = scan p txt i.
Proof.
  intros Hj. pose proof (scan_le p txt j) as Hle.
  destruct (Nat.lt_trichotomy (scan p txt j) (scan p txt i)) as [Hlt|[E|Hgt]]; [|done|].
  - destruct (scan_run p txt i (scan p txt j)) as (c & Hc & Hp); [lia|].
    rewrite (scan_stop p txt j c Hc) in Hp. done.
  - destruct (scan_run p txt j (scan p txt i)) as (c & Hc & Hp); [lia|].
    rewrite (scan_stop p txt i c Hc) in Hp. done.
Qed.

Lemma scan_all p txt :
  all_chars p txt = true -> scan p txt 0 = String.length txt.
Proof.
  intros Hall. pose proof (scan_bound p txt 0 ltac:(lia)) as Hle.
  destruct (String.get (scan p txt 0) txt) as [c|] eqn:E.
  - pose proof (scan_stop p txt 0 c E) as Hp.
    rewrite (all_chars_get _ _ _ _ Hall E) in Hp. done.
  - apply get_none in E. lia.
Qed.

Lemma slice_chars p txt start stop :
  (forall j, (start <= j < stop)%nat ->
     exists c, String.get j txt = Some c /\ p c = true) ->
  all_chars p (slice txt start stop) = true.
Proof.
  intros Hrun. apply get_all_chars. intros k c Hk. unfold slice in Hk.
  destruct (decide (k < stop - start)%nat) as [Hin|Hout].
  - rewrite substring_correct1 in Hk by done.
    destruct (Hrun (k + start)%nat) as (c' & Hc' & Hp); [lia|]. congruence.
  - rewrite substring_correct2 in Hk by lia. done.
Qed.

Lemma slice_first txt start stop c :
  (start < stop)%nat -> String.get start txt = Some c ->
  String.get 0 (slice txt start stop) = Some c.
Proof.
  intros Hlt Hc. unfold slice. rewrite substring_correct1 by lia. done.
Qed.

Lemma int_digits_nonneg s acc n : 0 <= acc -> int_digits acc s = Some n -> 0 <= n.
Proof.
  revert acc. induction s as [|c s IH]; intros acc Hacc; simpl.
  - by intros [= <-].
  - destruct (isdecimal c); [|done]. apply IH. lia.
Qed.

Lemma int_nonneg s n : int s = Ok n -> 0 <= n.
Proof.
  unfold int. destruct s as [|c s]; [done|].
  destruct (int_digits 0 (String c s)) as [m|] eqn:Hm; [|done].
  intros [= <-]. by apply (int_digits_nonneg _ 0 m ltac:(lia) Hm).
Qed.

(** Once [next_token] has returned the EOF token it returns it again, from
    the state it left, without moving. *)
Theorem next_token_eof_again lx t lx' :
  next_token lx = Ok (t, lx') -> type t = EOF ->
  next_token lx' = Ok (t, lx').
Proof.
  unfold next_token. set (q := scan isspace (text lx) (pos lx)).
  destruct (String.get q (text lx)) as [c|] eqn:Hq.
  - destruct (isdigit c).
    { destruct (int _); simpl; try done. by intros [= <- <-]. }
    destruct (isalpha c).
    { destruct (String.eqb _ _); by intros [= <- <-]. }
    repeat (destruct (Ascii.eqb c _); [by intros [= <- <-]|]). done.
  - intros [= <- <-] _. simpl.
    rewrite scan_fix by (intros c; by rewrite Hq). by rewrite Hq.
Qed.

Lemma next_token_eof_again_witness :
  next_token (mkLexer "x  " 3) = Ok (TOther EOF, mkLexer "x  " 3).
Proof.
  apply (next_token_eof_again (mkLexer "x  " 1)); reflexivity.
Defined.

Lemma next_token_positions lx t lx' :
  next_token lx = Ok (t, lx') ->
  text lx' = text lx
  /\ (pos lx <= pos lx')%nat
  /\ (type t <> EOF -> (pos lx < pos lx')%nat)
  /\ ((pos lx <= String.length (text lx))%nat ->
      (pos lx' <= String.length (text lx))%nat).
Proof.
  unfold next_token. set (txt := text lx). set (q := scan isspace txt (pos lx)).
  pose proof (scan_le isspace txt (pos lx)) as Hq.
  pose proof (scan_bound isspace txt (pos lx)) as Hqb.
  destruct (String.get q txt) as [c|] eqn:Hc.
  - assert (q < String.length txt)%nat as Hin.
    { destruct (decide (q < String.length txt)%nat); [done|].
      assert (String.get q txt = None) by (apply get_none; lia). congruence. }
    destruct (isdigit c) eqn:Hd.
    { pose proof (scan_gt isdigit txt q c Hc Hd).
      pose proof (scan_bound isdigit txt q ltac:(lia)).
      destruct (int _); simpl; try done. intros [= <- <-]. simpl. repeat split; lia. }
    destruct (isalpha c) eqn:Ha.
    { assert (isalnum c = true) as Han by (unfold isalnum; by rewrite Ha).
      pose proof (scan_gt isalnum txt q c Hc Han).
      pose proof (scan_bound isalnum txt q ltac:(lia)).
      destruct (String.eqb _ _); intros [= <- <-]; simpl; repeat split; lia. }
    repeat (destruct (Ascii.eqb c _);
            [intros [= <- <-]; simpl; repeat split; lia|]).
    done.
  - intros [= <- <-]. simpl. repeat split; try done; lia.
Qed.

(** A call of [next_token] that returns keeps the text, never moves the
    position back or past the end of the text, and moves it forward by at
    least one character when the token is not EOF. *)
Theorem next_token_moves_forward lx t lx' :
  next_token lx = Ok (t, lx') ->
  text lx' = text lx
  /\ (pos lx <= pos lx')%nat
  /\ (type t <> EOF -> (pos lx < pos lx')%nat)
  /\ ((pos lx <= String.length (text lx))%nat ->
      (pos lx' <= String.length (text lx))%nat).
Proof. apply next_token_positions. Qed.

Lemma next_token_moves_forward_witness :
  text (mkLexer "ab + 1" 2) = "ab + 1"
  /\ (0 <= 2)%nat
  /\ (type (TIdent "ab") <> EOF -> (0 < 2)%nat)
  /\ ((0 <= String.length "ab + 1")%nat -> (2 <= String.length "ab + 1")%nat).
Proof.
  apply (next_token_moves_forward (mkLexer "ab + 1" 0) (TIdent "ab") (mkLexer "ab + 1" 2)).
  reflexivity.
Defined.



(** What the tokens carry: a NUMBER is never negative; an IDENT is a
    non-empty word of alphanumeric characters that starts with a letter and
    is not the keyword [print]. *)
Theorem token_payloads lx t lx' :
  next_token lx = Ok (t, lx') ->
  match t with
  | TNumber n => 0 <= n
  | TIdent word =>
      word <> "print" /\ all_chars isalnum word = true /\
      exists c, String.get 0 word = Some c /\ isalpha c = true
  | TOther ty => ty <> NUMBER /\ ty <> IDENT
  end.
Proof.
  unfold next_token. set (txt := text lx). set (q := scan isspace txt (pos lx)).
  destruct (String.get q txt) as [c|] eqn:Hc; [|by intros [= <- <-]].
  destruct (isdigit c) eqn:Hd.
  { destruct (int (slice txt q (scan isdigit txt q))) as [n| |] eqn:Hn; simpl; try done.
    intros [= <- <-]. by apply int_nonneg with (slice txt q (scan isdigit txt q)). }
  destruct (isalpha c) eqn:Ha.
  { assert (isalnum c = true) as Han by (unfold isalnum; by rewrite Ha).
    pose proof (scan_gt isalnum txt q c Hc Han) as Hgt.
    destruct (String.eqb _ _) eqn:Heq; intros [= <- <-]; [done|].
    split; [by apply String.eqb_neq|]. split.
    - apply slice_chars. intros j Hj. by apply scan_run with q.
    - exists c. split; [by apply slice_first|done]. }
  repeat (destruct (Ascii.eqb c _); [by intros [= <- <-]|]). done.
Qed.

Lemma token_payloads_witness :
  "print1" <> "print" /\ all_chars isalnum "print1" = true /\
  exists c, String.get 0 "print1" = Some c /\ isalpha c = true.
Proof.
  apply (token_payloads (mkLexer " print1 = 2" 0) (TIdent "print1")
           (mkLexer " print1 = 2" 7)).
  reflexivity.
Defined.

(** ** Reading back what [print] writes *)

Lemma int_digits_of_uint_acc d acc :
  int_digits (Z.pos acc) (NilEmpty.string_of_uint d) = Some (Z.pos (Pos.of_uint_acc d acc)).
Proof.
  revert acc. induction d as [|d IH|d IH|d IH|d IH|d IH|d IH|d IH|d IH|d IH|d IH];
    intros acc; [done|..];
    cbn [NilEmpty.string_of_uint int_digits Pos.of_uint_acc];
    match goal with
    | |- context [isdecimal ?c] => replace (isdecimal c) with true by reflexivity
    end;
    rewrite <- IH; f_equal; vm_compute (code _ - 48)%N; lia.
Qed.

Lemma int_digits_of_uint d :
  int_digits 0 (NilEmpty.string_of_uint d) = Some (Z.of_N (Pos.of_uint d)).
Proof.
  induction d as [|d IH|d IH|d IH|d IH|d IH|d IH|d IH|d IH|d IH|d IH]; [done|..];
    cbn [NilEmpty.string_of_uint int_digits Pos.of_uint];
    match goal with
    | |- context [isdecimal ?c] => replace (isdecimal c) with true by reflexivity
    end;
    [exact IH|..]; cbn [Z.of_N]; rewrite <- int_digits_of_uint_acc; f_equal.
Qed.

Lemma all_decimal_of_uint d : all_chars isdecimal (NilEmpty.string_of_uint d) = true.
Proof.
  induction d; simpl; [done|..]; rewrite IHd; reflexivity.
Qed.

Lemma all_chars_impl (p q : ascii -> bool) s :
  (forall c, p c = true -> q c = true) -> all_chars p s = true -> all_chars q s = true.
Proof.
  intros Hpq. induction s as [|c s IH]; simpl; [done|].
  intros [Hc Hs]%andb_prop. by rewrite (Hpq c Hc), IH.
Qed.

Lemma decimal_not_space c : isdecimal c = true -> isspace c = false.
Proof. destruct c as [[] [] [] [] [] [] [] []]; by vm_compute. Qed.

Lemma decimal_digit c : isdecimal c = true -> isdigit c = true.
Proof. unfold isdigit. by intros ->. Qed.

Lemma slice_whole s : slice s 0 (String.length s) = s.
Proof.
  unfold slice. rewrite Nat.sub_0_r. induction s as [|c s IH]; simpl; [done|].
  by rewrite IH.
Qed.

Lemma str_pos p : str (Z.pos p) = NilEmpty.string_of_uint (Pos.to_uint p).
Proof.
  unfold str. simpl. pose proof (DecimalPos.Unsigned.to_uint_nonnil p) as Hnil.
  by destruct (Pos.to_uint p).
Qed.

Lemma int_str_pos p : int (str (Z.pos p)) = Ok (Z.pos p).
Proof.
  rewrite str_pos. unfold int. rewrite int_digits_of_uint, DecimalPos.Unsigned.of_to.
  pose proof (DecimalPos.Unsigned.to_uint_nonnil p) as Hnil.
  by destruct (Pos.to_uint p).
Qed.

Lemma next_token_decimal txt n :
  txt <> "" -> all_chars isdecimal txt = true -> int txt = Ok n ->
  next_token (mkLexer txt 0) = Ok (TNumber n, mkLexer txt (String.length txt)).
Proof.
  intros Hne Hall Hint. destruct txt as [|c s] eqn:E; [done|]. rewrite <- E in *.
  assert (String.get 0 txt = Some c) as Hc by by rewrite E.
  pose proof (all_chars_get _ _ _ _ Hall Hc) as Hdec.
  unfold next_token. simpl.
  rewrite (scan_fix isspace txt 0)
    by (intros c'; rewrite Hc; intros [= <-]; by apply decimal_not_space).
  rewrite Hc, (decimal_digit c Hdec).
  rewrite (scan_all isdigit txt) by by apply (all_chars_impl isdecimal), Hall; apply decimal_digit.
  by rewrite slice_whole, Hint.
Qed.



(** ** Termination of the parser *)

Lemma next_token_settles lx : next_token lx <> OutOfFuel.
Proof.
  unfold next_token. destruct (String.get _ _) as [c|]; [|done].
  destruct (isdigit c).
  { unfold int. destruct (slice _ _ _); [done|]. by destruct (int_digits _ _). }
  destruct (isalpha c); [by destruct (String.eqb _ _)|].
  repeat (destruct (Ascii.eqb c _); [done|]). done.
Qed.

Lemma next_token_consumes lx t lx' :
  next_token lx = Ok (t, lx') -> type t <> EOF ->
  (pos lx < pos lx' <= String.length (text lx))%nat.
Proof.
  intros Hnt Ht. destruct (next_token_positions lx t lx' Hnt) as (_ & _ & Hlt & Hb).
  specialize (Hlt Ht). split; [done|]. apply Hb.
  destruct (decide (pos lx <= String.length (text lx))%nat) as [|Hgt]; [done|].
  exfalso. apply Ht. revert Hnt. unfold next_token.
  assert (String.get (scan isspace (text lx) (pos lx)) (text lx) = None) as ->.
  { apply get_none. pose proof (scan_le isspace (text lx) (pos lx)). lia. }
  by intros [= <- _].
Qed.

Lemma advance_settles p : advance p <> OutOfFuel.
Proof.
  unfold advance. pose proof (next_token_settles (lexer p)).
  by destruct (next_token (lexer p)) as [[t lx]| |].
Qed.

Lemma advance_remaining p p' :
  advance p = Ok p' -> type (token p) <> EOF -> (remaining p' < remaining p)%nat.
Proof.
  unfold advance. destruct (next_token (lexer p)) as [[t lx]| |] eqn:Hnt; try done.
  intros [= <-] Hp. unfold remaining. simpl. rewrite (decide_False (P := type (token p) = EOF)) by done.
  destruct (next_token_positions _ _ _ Hnt) as (-> & Hle & _ & _).
  destruct (decide (type t = EOF)) as [|Ht]; [lia|].
  pose proof (next_token_consumes _ _ _ Hnt Ht). lia.
Qed.

Lemma eat_settles ty p : eat ty p <> OutOfFuel.
Proof.
  unfold eat. destruct (decide _); [|done]. apply (advance_settles p).
Qed.

Lemma eat_remaining ty p p' :
  eat ty p = Ok p' -> ty <> EOF -> (remaining p' < remaining p)%nat.
Proof.
  unfold eat. destruct (decide (type (token p) = ty)) as [E|]; [|done].
  intros H Hty. apply advance_remaining; [done|congruence].
Qed.

Lemma while_op_ends ops sub k :
  EOF ∉ ops -> ends_within k sub ->
  forall fuel nd p, (remaining p <= k)%nat -> (remaining p < fuel)%nat ->
    while_op ops sub fuel nd p <> OutOfFuel /\
    forall e p', while_op ops sub fuel nd p = Ok (e, p') ->
      (remaining p' <= remaining p)%nat.
Proof.
  intros Hops Hsub. induction fuel as [|fuel IH]; intros nd p Hk Hfuel; [lia|]. simpl.
  destruct (bool_decide (type (token p) ∈ ops)) eqn:Hin.
  2:{ split; [done|]. by intros e p' [= <- <-]. }
  apply bool_decide_eq_true_1 in Hin.
  pose proof (eat_settles (type (token p)) p) as Heat.
  destruct (eat (type (token p)) p) as [p1| |] eqn:E1; [|done|done]. simpl.
  assert (remaining p1 < remaining p)%nat as H1.
  { apply (eat_remaining _ _ _ E1). intros E. apply Hops. by rewrite <- E. }
  destruct (Hsub p1 ltac:(lia)) as (Hs & Hb).
  destruct (sub p1) as [[r p2]| |] eqn:E2; [|done|done]. simpl.
  specialize (Hb r p2 eq_refl).
  destruct (IH (binop (type (token p)) nd r) p2 ltac:(lia) ltac:(lia)) as (Hw & Hwb).
  split; [done|]. intros e p' He. specialize (Hwb e p' He). lia.
Qed.

Lemma term_with_ends sub k fuel :
  ends_within k sub -> (k < fuel)%nat -> ends_within k (term_with sub fuel).
Proof.
  intros Hsub Hfuel q Hq. unfold term_with.
  destruct (Hsub q Hq) as (Hs & Hb).
  destruct (sub q) as [[nd q1]| |] eqn:E; [|done|done]. simpl.
  specialize (Hb nd q1 eq_refl).
  destruct (while_op_ends [TIMES; DIVIDE] sub k ltac:(decide_mem) Hsub fuel nd q1
              ltac:(lia) ltac:(lia)) as (Hw & Hwb).
  split; [done|]. intros e q' He. specialize (Hwb e q' He). lia.
Qed.

Lemma expr_with_ends sub k fuel :
  ends_within k sub -> (k < fuel)%nat -> ends_within k (expr_with sub fuel).
Proof.
  intros Hsub Hfuel q Hq. unfold expr_with.
  pose proof (term_with_ends sub k fuel Hsub Hfuel) as Hterm.
  destruct (Hterm q Hq) as (Hs & Hb).
  destruct (term_with sub fuel q) as [[nd q1]| |] eqn:E; [|done|done]. simpl.
  specialize (Hb nd q1 eq_refl).
  destruct (while_op_ends [PLUS; MINUS] (term_with sub fuel) k ltac:(decide_mem) Hterm
              fuel nd q1 ltac:(lia) ltac:(lia)) as (Hw & Hwb).
  split; [done|]. intros e q' He. specialize (Hwb e q' He). lia.
Qed.

Lemma factor_ends fuel : forall k, (k < fuel)%nat -> ends_within k (factor fuel).
Proof.
  induction fuel as [|fuel IH]; intros k Hk q Hq; [lia|]. simpl.
  destruct (token q) as [v|x|ty] eqn:Htok.
  - pose proof (eat_settles NUMBER q). destruct (eat NUMBER q) as [q1| |] eqn:E; [|done|done].
    simpl. split; [done|]. intros e q' [= <- <-].
    pose proof (eat_remaining _ _ _ E ltac:(done)). lia.
  - pose proof (eat_settles IDENT q). destruct (eat IDENT q) as [q1| |] eqn:E; [|done|done].
    simpl. split; [done|]. intros e q' [= <- <-].
    pose proof (eat_remaining _ _ _ E ltac:(done)). lia.
  - destruct ty; try (split; [done|]; by intros e q' [= <- <-]).
    pose proof (eat_settles LPAREN q).
    destruct (eat LPAREN q) as [q1| |] eqn:E1; [|done|done]. simpl.
    pose proof (eat_remaining _ _ _ E1 ltac:(done)) as H1.
    destruct (expr_with_ends (factor fuel) (remaining q1) fuel
                (IH (remaining q1) ltac:(lia)) ltac:(lia) q1 ltac:(lia)) as (Hs & Hb).
    destruct (expr_with (factor fuel) fuel q1) as [[nd q2]| |] eqn:E2; [|done|done]. simpl.
    specialize (Hb nd q2 eq_refl).
    pose proof (eat_settles RPAREN q2).
    destruct (eat RPAREN q2) as [q3| |] eqn:E3; [|done|done]. simpl.
    split; [done|]. intros e q' [= <- <-].
    pose proof (eat_remaining _ _ _ E3 ltac:(done)). lia.
Qed.

Lemma expr_ends fuel k : (k < fuel)%nat -> ends_within k (expr fuel).
Proof. intros Hk. apply expr_with_ends; [by apply factor_ends|done]. Qed.

Lemma statement_ends fuel p :
  (remaining p < fuel)%nat ->
  statement fuel p <> OutOfFuel /\
  forall s p', statement fuel p = Ok (s, p') ->
    (remaining p' <= remaining p)%nat /\
    ((exists x, token p = TIdent x) \/ token p = TOther PRINT ->
     (remaining p' < remaining p)%nat).
Proof.
  intros Hfuel. unfold statement. destruct (token p) as [v|x|ty] eqn:Htok.
  - split; [done|]. intros s p' [= <- <-]. split; [done|]. by intros [[x ?]|].
  - pose proof (eat_settles IDENT p). destruct (eat IDENT p) as [p1| |] eqn:E1; [|done|done].
    simpl. pose proof (eat_remaining _ _ _ E1 ltac:(done)) as H1.
    pose proof (eat_settles ASSIGN p1). destruct (eat ASSIGN p1) as [p2| |] eqn:E2; [|done|done].
    simpl. pose proof (eat_remaining _ _ _ E2 ltac:(done)) as H2.
    destruct (expr_ends fuel (remaining p2) ltac:(lia) p2 ltac:(lia)) as (Hs & Hb).
    destruct (expr fuel p2) as [[e p3]| |]; [|done|done]. simpl.
    specialize (Hb e p3 eq_refl). split; [done|]. intros s p' [= <- <-]. lia.
  - destruct ty;
      try (split; [done|]; intros s p' [= <- <-]; split; [done|]; by intros [[x ?]|]).
    pose proof (eat_settles PRINT p). destruct (eat PRINT p) as [p1| |] eqn:E1; [|done|done].
    simpl. pose proof (eat_remaining _ _ _ E1 ltac:(done)) as H1.
    destruct (expr_ends fuel (remaining p1) ltac:(lia) p1 ltac:(lia)) as (Hs & Hb).
    destruct (expr fuel p1) as [[e p3]| |]; [|done|done]. simpl.
    specialize (Hb e p3 eq_refl). split; [done|]. intros s p' [= <- <-]. lia.
Qed.

(** Parsing an expression or a single statement always comes to an end:
    with more fuel than the parser state has input left, [factor], [term],
    [expr] and [statement] return or raise. *)
Theorem expression_parsing_terminates p fuel :
  (remaining p < fuel)%nat ->
  factor fuel p <> OutOfFuel /\ term fuel p <> OutOfFuel /\
  expr fuel p <> OutOfFuel /\ statement fuel p <> OutOfFuel.
Proof.
  intros Hfuel. split; [|split; [|split]].
  - by apply (factor_ends fuel (remaining p) Hfuel p).
  - apply (term_with_ends (factor fuel) (remaining p) fuel); [by apply factor_ends|done|done].
  - by apply (expr_ends fuel (remaining p) Hfuel p).
  - by apply statement_ends.
Qed.

Lemma expression_parsing_terminates_witness :
  factor 7 (mkParser (mkLexer "((1))" 1) (TOther LPAREN)) <> OutOfFuel /\
  term 7 (mkParser (mkLexer "((1))" 1) (TOther LPAREN)) <> OutOfFuel /\
  expr 7 (mkParser (mkLexer "((1))" 1) (TOther LPAREN)) <> OutOfFuel /\
  statement 7 (mkParser (mkLexer "((1))" 1) (TOther LPAREN)) <> OutOfFuel.
Proof.
  apply expression_parsing_terminates. vm_compute. lia.
Defined.

(** ** Where [parse] does not terminate *)

Lemma statement_other fuel p :
  ~ ((exists x, token p = TIdent x) \/ token p = TOther PRINT) ->
  statement fuel p = Ok (None_, p).
Proof.
  intros H. unfold statement. destruct (token p) as [v|x|ty]; [done| |].
  - destruct H. left. by exists x.
  - destruct ty; try done. destruct H. by right.
Qed.

(** At a token that starts no statement and is not EOF (a number, an
    operator, a parenthesis, [=]), [statement] returns [None] and leaves
    the parser where it is, and the loop of [parse] never ends, whatever
    it has collected so far. *)
Theorem parse_sticks_at_other_tokens fuel n acc p :
  type (token p) ∉ [IDENT; PRINT; EOF] ->
  statement fuel p = Ok (None_, p) /\ parse_loop fuel n acc p = OutOfFuel.
Proof.
  intros Hty.
  assert (statement fuel p = Ok (None_, p)) as Hst.
  { apply statement_other. intros [[x Hx]|Hx]; apply Hty; rewrite Hx; decide_mem. }
  split; [done|]. apply parse_loop_stuck; [|done].
  intros E. apply Hty. rewrite E. decide_mem.
Qed.

Lemma parse_sticks_at_other_tokens_witness :
  statement 9 (mkParser (mkLexer "x = 1 + 2 ) y = 3" 11) (TOther RPAREN)) =
    Ok (None_, mkParser (mkLexer "x = 1 + 2 ) y = 3" 11) (TOther RPAREN))
  /\ parse_loop 9 9 [assign "x" (binop PLUS (number 1) (number 2))]
       (mkParser (mkLexer "x = 1 + 2 ) y = 3" 11) (TOther RPAREN)) = OutOfFuel.
Proof.
  apply parse_sticks_at_other_tokens. apply (bool_decide_unpack _). vm_compute. exact I.
Defined.

Lemma classic_token p :
  ((exists x, token p = TIdent x) \/ token p = TOther PRINT)
  \/ ~ ((exists x, token p = TIdent x) \/ token p = TOther PRINT).
Proof.
  destruct (token p) as [v|x|ty].
  - right. by intros [[x ?]|].
  - left. left. by exists x.
  - destruct ty; try (right; by intros [[x ?]|]). left. by right.
Qed.

Lemma parse_loop_decided n :
  forall fuel acc p, (remaining p < fuel)%nat -> (remaining p < n)%nat ->
    parse_loop fuel n acc p = OutOfFuel ->
    forall fuel' n', parse_loop fuel' n' acc p = OutOfFuel.
Proof.
  induction n as [|n IH]; intros fuel acc p Hfuel Hn; [lia|]. simpl.
  destruct (decide (type (token p) <> EOF)) as [Hty|]; [|done].
  destruct (statement_ends fuel p Hfuel) as (Hs & Hb).
  destruct (statement fuel p) as [[s p1]| |] eqn:Hst; [|done|done]. simpl.
  destruct (Hb s p1 eq_refl) as (Hle & Hlt). intros Hloop fuel' n'.
  destruct (classic_token p) as [Hprog|Hother].
  - specialize (Hlt Hprog).
    pose proof (IH fuel (acc ++ [s]) p1 ltac:(lia) ltac:(lia) Hloop) as Hall.
    destruct n' as [|n']; [done|]. simpl. rewrite decide_True by done.
    assert (statement fuel' p = OutOfFuel \/ statement fuel' p = Ok (s, p1)) as [->| ->];
      [|done|apply Hall].
    destruct (Nat.le_ge_cases fuel fuel') as [Hff|Hff].
    + right. rewrite <- Hst. apply statement_below; [done|by rewrite Hst].
    + pose proof (statement_below fuel' fuel p Hff) as Hbelow. unfold below in Hbelow.
      destruct (statement fuel' p) as [[s' p1']|e|]; [right|right|by left];
        rewrite <- Hst; symmetry; by apply Hbelow.
  - apply parse_loop_stuck; [done|by apply statement_other].
Qed.

Lemma gen_settles nd bc : gen nd bc <> OutOfFuel.
Proof.
  revert bc. induction nd as [v|x|op l IHl r IHr|x e IH|e IH|]; intros bc; simpl; try done.
  - specialize (IHl bc). destruct (gen l bc) as [bc1| |]; [|done|done]. simpl.
    specialize (IHr bc1). destruct (gen r bc1) as [bc2| |]; [|done|done]. simpl.
    by destruct op.
  - specialize (IH bc). by destruct (gen e bc).
  - specialize (IH bc). by destruct (gen e bc).
Qed.

Lemma gen_all_settles ast bc : gen_all ast bc <> OutOfFuel.
Proof.
  revert bc. induction ast as [|s ast IH]; intros bc; simpl; [done|].
  pose proof (gen_settles s bc). destruct (gen s bc) as [bc1| |]; [|done|done]. apply IH.
Qed.

Lemma Parser_init_remaining source p :
  Parser_init (mkLexer source 0) = Ok p -> (remaining p <= String.length source + 1)%nat.
Proof.
  unfold Parser_init. destruct (next_token _) as [[t lx]| |] eqn:Hnt; try done.
  intros [= <-]. destruct (next_token_positions _ _ _ Hnt) as (Htxt & _).
  unfold remaining. simpl in *. rewrite Htxt. destruct (decide _); lia.
Qed.

(** Whether a call of [run_compiler] ends is settled by the length of the
    source: a call that has not ended with fuel two more than the number
    of characters never ends, however much fuel it is given. *)
Theorem divergence_is_decided source :
  run_compiler (String.length source + 2) source = Unfinished ->
  forall fuel, run_compiler fuel source = Unfinished.
Proof.
  unfold run_compiler, run_compiler_from, compile.
  destruct (Parser_init (mkLexer source 0)) as [p|e|] eqn:Hinit; simpl; [|done|done].
  pose proof (Parser_init_remaining source p Hinit) as Hrem.
  set (N := (String.length source + 2)%nat) in *. unfold parse.
  destruct (parse_loop N N [] p) as [[ast p']|e|] eqn:Hloop; simpl.
  - pose proof (gen_all_settles ast []). destruct (gen_all ast []); [|done|done].
    by destruct (run _ _).
  - done.
  - intros _ fuel.
    by rewrite (parse_loop_decided N N [] p ltac:(lia) ltac:(lia) Hloop fuel fuel).
Qed.

Lemma divergence_is_decided_witness :
  run_compiler 1000 "y = 2 * ) 3" = Unfinished.
Proof.
  apply (divergence_is_decided "y = 2 * ) 3"). vm_compute. reflexivity.
Defined.

(** ** The parser accepts the grammar only *)

Lemma reads_one p p1 :
  type (token p) <> EOF -> advance p = Ok p1 -> reads p [token p] p1.
Proof. intros Hty Hadv. apply reads_cons with p1; [done|done|constructor]. Qed.

Lemma reads_app p ts1 p1 ts2 p2 :
  reads p ts1 p1 -> reads p1 ts2 p2 -> reads p (ts1 ++ ts2) p2.
Proof.
  induction 1 as [|p q ts p' Hty Hadv _ IH]; intros H2; [done|].
  simpl. apply reads_cons with q; auto.
Qed.

Lemma reads_feeds p ts p' : reads p ts p' -> type (token p') = EOF -> feeds p ts.
Proof.
  induction 1 as [|p q ts p' Hty Hadv _ IH]; intros Hend; [by constructor|].
  apply feeds_token with q; auto.
Qed.

Lemma eat_reads ty p p1 :
  eat ty p = Ok p1 -> ty <> EOF ->
  type (token p) = ty /\ reads p [token p] p1.
Proof.
  unfold eat. destruct (decide (type (token p) = ty)) as [E|]; [|done].
  intros Hadv Hty. split; [done|]. apply reads_one; [congruence|done].
Qed.

Lemma plain_token t ty : type t = ty -> ty <> NUMBER -> ty <> IDENT -> t = TOther ty.
Proof. destruct t; simpl; intros <-; done. Qed.

Lemma while_op_spine ops sub fuel nd p e p' :
  while_op ops sub fuel nd p = Ok (e, p') -> is_expr e = true -> is_expr nd = true.
Proof.
  revert nd p. induction fuel as [|fuel IH]; intros nd p; simpl; [done|].
  destruct (bool_decide _); [|by intros [= <- <-]].
  destruct (eat _ p) as [p1| |]; simpl; try done.
  destruct (sub p1) as [[r p2]| |]; simpl; try done.
  intros Hw He. specialize (IH _ _ Hw He). simpl in IH.
  by apply andb_prop in IH as [[_ ?]%andb_prop _].
Qed.

Lemma while_op_sound ops sub (Dacc Dsub : list Token -> node -> Prop) :
  (forall op, op ∈ ops -> op <> EOF /\ op <> NUMBER /\ op <> IDENT) ->
  (forall q r q', sub q = Ok (r, q') -> is_expr r = true ->
     exists ts, reads q ts q' /\ Dsub ts r) ->
  (forall op ts1 ts2 l r, op ∈ ops -> Dacc ts1 l -> Dsub ts2 r ->
     Dacc (ts1 ++ TOther op :: ts2) (binop op l r)) ->
  forall fuel nd p e p' p0 ts0,
    reads p0 ts0 p -> Dacc ts0 nd ->
    while_op ops sub fuel nd p = Ok (e, p') -> is_expr e = true ->
    exists ts, reads p0 ts p' /\ Dacc ts e.
Proof.
  intros Hops Hsub Hstep. induction fuel as [|fuel IH];
    intros nd p e p' p0 ts0 Hreads Hacc; simpl; [done|].
  destruct (bool_decide (type (token p) ∈ ops)) eqn:Hin.
  2:{ intros [= <- <-] _. eauto. }
  apply bool_decide_eq_true_1 in Hin. destruct (Hops _ Hin) as (Hne & Hnn & Hni).
  destruct (eat (type (token p)) p) as [p1| |] eqn:E1; simpl; try done.
  destruct (sub p1) as [[r p2]| |] eqn:E2; simpl; try done.
  intros Hw He.
  pose proof (while_op_spine _ _ _ _ _ _ _ Hw He) as Hspine. simpl in Hspine.
  apply andb_prop in Hspine as [_ Hr].
  destruct (Hsub _ _ _ E2 Hr) as (tsr & Hreadr & Hdr).
  destruct (eat_reads _ _ _ E1 Hne) as (_ & Hread1).
  apply (IH (binop (type (token p)) nd r) p2 e p' p0 (ts0 ++ TOther (type (token p)) :: tsr));
    [|by apply Hstep|done|done].
  apply reads_app with p; [done|].
  rewrite <- (plain_token (token p) _ eq_refl Hnn Hni).
  change (token p :: tsr) with ([token p] ++ tsr). by apply reads_app with p1.
Qed.

Lemma term_with_sound sub fuel :
  (forall q r q', sub q = Ok (r, q') -> is_expr r = true ->
     exists ts, reads q ts q' /\ derives Factor ts r) ->
  forall q r q', term_with sub fuel q = Ok (r, q') -> is_expr r = true ->
    exists ts, reads q ts q' /\ derives Term ts r.
Proof.
  intros Hsub q r q'. unfold term_with.
  destruct (sub q) as [[nd q1]| |] eqn:E; simpl; try done. intros Hw Hr.
  pose proof (while_op_spine _ _ _ _ _ _ _ Hw Hr) as Hnd.
  destruct (Hsub _ _ _ E Hnd) as (ts0 & Hreads & Hd).
  eapply (while_op_sound [TIMES; DIVIDE] sub (derives Term) (derives Factor));
    [|exact Hsub| |exact Hreads|by apply d_factor|exact Hw|exact Hr].
  - intros op Hop. by either_op Hop.
  - intros op ts1 ts2 l r' Hop. by apply d_mul.
Qed.

Lemma expr_with_sound sub fuel :
  (forall q r q', sub q = Ok (r, q') -> is_expr r = true ->
     exists ts, reads q ts q' /\ derives Factor ts r) ->
  forall q r q', expr_with sub fuel q = Ok (r, q') -> is_expr r = true ->
    exists ts, reads q ts q' /\ derives Expr ts r.
Proof.
  intros Hsub q r q'. unfold expr_with.
  destruct (term_with sub fuel q) as [[nd q1]| |] eqn:E; simpl; try done. intros Hw Hr.
  pose proof (while_op_spine _ _ _ _ _ _ _ Hw Hr) as Hnd.
  destruct (term_with_sound sub fuel Hsub _ _ _ E Hnd) as (ts0 & Hreads & Hd).
  eapply (while_op_sound [PLUS; MINUS] (term_with sub fuel) (derives Expr) (derives Term));
    [|by apply term_with_sound| |exact Hreads|by apply d_term|exact Hw|exact Hr].
  - intros op Hop. by either_op Hop.
  - intros op ts1 ts2 l r' Hop. by apply d_add.
Qed.

Lemma factor_sound fuel :
  forall q r q', factor fuel q = Ok (r, q') -> is_expr r = true ->
    exists ts, reads q ts q' /\ derives Factor ts r.
Proof.
  induction fuel as [|fuel IH]; intros q r q'; simpl; [done|].
  destruct (token q) as [v|x|ty] eqn:Htok.
  - destruct (eat NUMBER q) as [q1| |] eqn:E; simpl; try done. intros [= <- <-] _.
    destruct (eat_reads _ _ _ E ltac:(done)) as (_ & Hr). rewrite Htok in Hr.
    exists [TNumber v]. split; [done|constructor].
  - destruct (eat IDENT q) as [q1| |] eqn:E; simpl; try done. intros [= <- <-] _.
    destruct (eat_reads _ _ _ E ltac:(done)) as (_ & Hr). rewrite Htok in Hr.
    exists [TIdent x]. split; [done|constructor].
  - destruct ty; try (by intros [= <- <-]).
    destruct (eat LPAREN q) as [q1| |] eqn:E1; simpl; try done.
    destruct (expr_with (factor fuel) fuel q1) as [[nd q2]| |] eqn:E2; simpl; try done.
    destruct (eat RPAREN q2) as [q3| |] eqn:E3; simpl; try done. intros [= <- <-] Hnd.
    destruct (expr_with_sound (factor fuel) fuel IH _ _ _ E2 Hnd) as (ts & Hreads & Hd).
    destruct (eat_reads _ _ _ E1 ltac:(done)) as (_ & Hr1). rewrite Htok in Hr1.
    destruct (eat_reads _ _ _ E3 ltac:(done)) as (Ht3 & Hr3).
    rewrite (plain_token _ _ Ht3 ltac:(done) ltac:(done)) in Hr3.
    exists (TOther LPAREN :: ts ++ [TOther RPAREN]). split; [|by constructor].
    change (TOther LPAREN :: ts ++ [TOther RPAREN])
      with ([TOther LPAREN] ++ ts ++ [TOther RPAREN]).
    apply reads_app with q1; [done|]. by apply reads_app with q2.
Qed.

Lemma statement_sound fuel p s p' :
  statement fuel p = Ok (s, p') -> is_stmt s = true ->
  exists ts, reads p ts p' /\ derives_stmt ts s.
Proof.
  unfold statement. destruct (token p) as [v|x|ty] eqn:Htok; [by intros [= <- <-]| |].
  - destruct (eat IDENT p) as [p1| |] eqn:E1; simpl; try done.
    destruct (eat ASSIGN p1) as [p2| |] eqn:E2; simpl; try done.
    destruct (expr fuel p2) as [[e p3]| |] eqn:E3; simpl; try done.
    intros [= <- <-] He. simpl in He.
    destruct (expr_with_sound _ _ (factor_sound fuel) _ _ _ E3 He) as (ts & Hreads & Hd).
    destruct (eat_reads _ _ _ E1 ltac:(done)) as (_ & Hr1). rewrite Htok in Hr1.
    destruct (eat_reads _ _ _ E2 ltac:(done)) as (Ht2 & Hr2).
    rewrite (plain_token _ _ Ht2 ltac:(done) ltac:(done)) in Hr2.
    exists (TIdent x :: TOther ASSIGN :: ts). split; [|by constructor].
    change (TIdent x :: TOther ASSIGN :: ts) with ([TIdent x] ++ [TOther ASSIGN] ++ ts).
    apply reads_app with p1; [done|]. by apply reads_app with p2.
  - destruct ty; try (by intros [= <- <-]).
    destruct (eat PRINT p) as [p1| |] eqn:E1; simpl; try done.
    destruct (expr fuel p1) as [[e p3]| |] eqn:E3; simpl; try done.
    intros [= <- <-] He. simpl in He.
    destruct (expr_with_sound _ _ (factor_sound fuel) _ _ _ E3 He) as (ts & Hreads & Hd).
    destruct (eat_reads _ _ _ E1 ltac:(done)) as (_ & Hr1). rewrite Htok in Hr1.
    exists (TOther PRINT :: ts). split; [|by constructor].
    change (TOther PRINT :: ts) with ([TOther PRINT] ++ ts). by apply reads_app with p1.
Qed.

Lemma parse_loop_sound fuel n :
  forall acc p ast p',
    parse_loop fuel n acc p = Ok (ast, p') ->
    exists rest, ast = acc ++ rest /\
      (forallb is_stmt rest = true ->
       exists ts, reads p ts p' /\ type (token p') = EOF /\ derives_program ts rest).
Proof.
  induction n as [|n IH]; intros acc p ast p'; simpl; [done|].
  destruct (decide (type (token p) <> EOF)) as [Hty|Hty].
  - destruct (statement fuel p) as [[s p1]| |] eqn:Hs; simpl; try done. intros Hloop.
    destruct (IH _ _ _ _ Hloop) as (rest & -> & Hrest).
    exists (s :: rest). split; [by rewrite <- app_assoc|].
    simpl. intros [Hst Hall]%andb_prop.
    destruct (Hrest Hall) as (ts2 & Hr2 & Hend & Hd2).
    destruct (statement_sound _ _ _ _ Hs Hst) as (ts1 & Hr1 & Hd1).
    exists (ts1 ++ ts2). split; [by apply reads_app with p1|]. split; [done|].
    by constructor.
  - intros [= <- <-]. exists []. split; [by rewrite app_nil_r|]. intros _.
    exists []. split; [constructor|]. split; [|constructor].
    by destruct (decide (type (token p) = EOF)) as [|Hne]; [|destruct Hty].
Qed.

(** A source text is compiled to bytecode exactly when its tokens are a
    program of the grammar, and the bytecode is then the code of the
    statements the grammar gives it. *)
Theorem compiles_exactly_the_grammar source :
  (forall fuel c, compile fuel source = Ok c ->
     exists ts ast, lexes source ts /\ derives_program ts ast /\ gen_all ast [] = Ok c)
  /\ (forall ts ast, lexes source ts -> derives_program ts ast ->
        exists c n, gen_all ast [] = Ok c /\
          forall fuel, (n <= fuel)%nat -> compile fuel source = Ok c).
Proof.
  split.
  - intros fuel c. unfold compile.
    destruct (Parser_init (mkLexer source 0)) as [p| |] eqn:Hinit; simpl; try done.
    destruct (parse fuel p) as [[ast p']| |] eqn:Hparse; simpl; try done. intros Hgen.
    pose proof (parse_loop_shaped _ _ [] _ _ _ eq_refl Hparse) as Hshaped.
    destruct (gen_all_shaped ast Hshaped) as [Hast|Hraise]; [|by rewrite Hraise in Hgen].
    destruct (parse_loop_sound _ _ _ _ _ _ Hparse) as (rest & E & Hrest).
    simpl in E. subst rest. destruct (Hrest Hast) as (ts & Hreads & Hend & Hd).
    exists ts, ast. split; [|done]. exists p. split; [done|]. by apply reads_feeds with p'.
  - intros ts ast Hlex Hd.
    destruct (compile_complete _ _ _ Hlex Hd) as (n & Hc).
    destruct (gen_program ast (derives_program_is_stmt _ _ Hd)) as (c & Hg & _).
    exists c, n. split; [by rewrite Hg|]. intros fuel Hfuel. by rewrite Hc, Hg.
Qed.

Lemma compiles_exactly_the_grammar_witness :
  exists ts ast, lexes "print (1)" ts /\ derives_program ts ast /\
    gen_all ast [] = Ok [Op.PUSH 1; Op.PRINT].
Proof.
  apply (proj1 (compiles_exactly_the_grammar "print (1)") 3%nat). vm_compute. reflexivity.
Defined.

(** ** The code generator and the machine *)

Lemma gen_generable nd :
  generable nd = true ->
  exists c, c <> [] /\ forall bc, gen nd bc = Ok (bc ++ c).
Proof.
  induction nd as [v|x|op l IHl r IHr|x e IH|e IH|]; simpl; try done.
  - intros _. by exists [Op.PUSH v].
  - intros _. by exists [Op.LOAD x].
  - intros [[Hl Hr]%andb_prop Hop]%andb_prop.
    destruct (IHl Hl) as (cl & _ & Gl). destruct (IHr Hr) as (cr & _ & Gr).
    destruct (ops_operator op Hop) as (i & Hi & _).
    exists (cl ++ cr ++ [i]). split; [by destruct cl, cr|].
    intros bc. rewrite Gl. simpl. rewrite Gr. simpl. rewrite Hi. simpl.
    by rewrite <- !app_assoc.
  - intros He. destruct (IH He) as (c & _ & G). exists (c ++ [Op.STORE x]).
    split; [by destruct c|]. intros bc. rewrite G. simpl. by rewrite <- app_assoc.
  - intros He. destruct (IH He) as (c & _ & G). exists (c ++ [Op.PRINT]).
    split; [by destruct c|]. intros bc. rewrite G. simpl. by rewrite <- app_assoc.
Qed.

Lemma gen_ok_generable nd bc bc' : gen nd bc = Ok bc' -> generable nd = true.
Proof.
  revert bc bc'. induction nd as [v|x|op l IHl r IHr|x e IH|e IH|]; intros bc bc'; simpl;
    try done.
  - destruct (gen l bc) as [bc1| |] eqn:El; simpl; try done.
    destruct (gen r bc1) as [bc2| |] eqn:Er; simpl; try done.
    rewrite (IHl _ _ El), (IHr _ _ Er). by destruct op.
  - destruct (gen e bc) as [bc1| |] eqn:Ee; simpl; try done. intros _. by apply (IH _ _ Ee).
  - destruct (gen e bc) as [bc1| |] eqn:Ee; simpl; try done. intros _. by apply (IH _ _ Ee).
Qed.

(** [gen] succeeds on a node exactly when the node holds no [None] and no
    operator other than the four; it then leaves the bytecode it was given
    as it is and appends to it a sequence of instructions that is not
    empty and does not depend on what came before. *)
Theorem gen_appends_code nd bc bc' :
  gen nd bc = Ok bc' ->
  generable nd = true /\
  exists c, c <> [] /\ bc' = bc ++ c /\ forall bc2, gen nd bc2 = Ok (bc2 ++ c).
Proof.
  intros Hgen. pose proof (gen_ok_generable _ _ _ Hgen) as Hnd. split; [done|].
  destruct (gen_generable nd Hnd) as (c & Hc & G). exists c. split; [done|].
  split; [|done]. rewrite G in Hgen. by injection Hgen.
Qed.

Lemma gen_appends_code_witness :
  generable (assign "x" (binop TIMES (var "y") (number 2))) = true /\
  exists c, c <> [] /\
    [Op.PUSH 0; Op.PRINT; Op.LOAD "y"; Op.PUSH 2; Op.MUL; Op.STORE "x"] =
    [Op.PUSH 0; Op.PRINT] ++ c /\
    forall bc2, gen (assign "x" (binop TIMES (var "y") (number 2))) bc2 = Ok (bc2 ++ c).
Proof.
  apply (gen_appends_code (assign "x" (binop TIMES (var "y") (number 2)))
           [Op.PUSH 0; Op.PRINT]).
  reflexivity.
Defined.

(** Running one piece of bytecode after another is running their
    concatenation: the second starts in the machine the first ends with,
    and is not run at all when the first stops at a fault. *)
Theorem run_of_concatenation c1 c2 vm :
  run (c1 ++ c2) vm =
  match run c1 vm with
  | Done vm' => run c2 vm'
  | Fail e vm' => Fail e vm'
  end.
Proof.
  revert vm. induction c1 as [|i c1 IH]; intros vm; simpl; [done|].
  destruct (step i vm) as [vm1|e vm1]; [apply IH|done].
Qed.

Lemma step_frame i vm :
  (forall n, i <> Op.STORE n -> vars (machine_of (step i vm)) !! n = vars vm !! n)
  /\ exists lines, stdout (machine_of (step i vm)) = stdout vm ++ lines.
Proof.
  destruct i as [v|x|x| | | | |]; simpl; unfold binary.
  - split; [done|]. exists []. by rewrite app_nil_r.
  - destruct (vars vm !! x); simpl; (split; [done|]); exists []; by rewrite app_nil_r.
  - destruct (stack vm); simpl; (split; [|exists []; by rewrite app_nil_r]); [done|].
    intros n Hn. rewrite lookup_insert_ne; [done|]. congruence.
  - destruct (stack vm) as [|b [|a rest]]; simpl; (split; [done|]); exists [];
      by rewrite app_nil_r.
  - destruct (stack vm) as [|b [|a rest]]; simpl; (split; [done|]); exists [];
      by rewrite app_nil_r.
  - destruct (stack vm) as [|b [|a rest]]; simpl; (split; [done|]); exists [];
      by rewrite app_nil_r.
  - destruct (stack vm) as [|b [|a rest]]; simpl; try destruct (decide (b = 0)); simpl;
      (split; [done|]); exists []; by rewrite app_nil_r.
  - destruct (stack vm) as [|v rest]; simpl; (split; [done|]).
    + exists []. by rewrite app_nil_r.
    + by exists [str v].
Qed.

Lemma run_untouched c n vm :
  Op.STORE n ∉ c ->
  vars (machine_of (run c vm)) !! n = vars vm !! n
  /\ exists lines, stdout (machine_of (run c vm)) = stdout vm ++ lines.
Proof.
  revert vm. induction c as [|i c IH]; intros vm Hc; simpl.
  - split; [done|]. exists []. by rewrite app_nil_r.
  - apply not_elem_of_cons in Hc as [Hi Hc].
    destruct (step_frame i vm) as (Hv & lines & Hl). specialize (Hv n ltac:(congruence)).
    destruct (step i vm) as [vm1|e vm1]; simpl in *.
    + destruct (IH vm1 Hc) as (Hv1 & lines1 & Hl1). split; [congruence|].
      exists (lines ++ lines1). by rewrite Hl1, Hl, app_assoc.
    + split; [done|]. by exists lines.
Qed.

(** A run writes to no variable other than those its [STORE] instructions
    name: any other variable is bound or unbound, and to the same value, in
    the machine the run ends with as in the one it started in; and it only
    appends to standard output. This holds of runs that stop at a fault
    too. *)
Theorem run_frame c n vm :
  Op.STORE n ∉ c ->
  vars (machine_of (run c vm)) !! n = vars vm !! n
  /\ exists lines, stdout (machine_of (run c vm)) = stdout vm ++ lines.
Proof. apply run_untouched. Qed.

Lemma run_frame_witness :
  vars (machine_of (run [Op.PUSH 5; Op.STORE "y"; Op.LOAD "x"; Op.PRINT; Op.LOAD "z"]
                        (mkVM [] {["x" := 1]} ["a"]))) !! "x"
  = vars (mkVM [] {["x" := 1]} ["a"]) !! "x"
  /\ exists lines,
       stdout (machine_of (run [Op.PUSH 5; Op.STORE "y"; Op.LOAD "x"; Op.PRINT; Op.LOAD "z"]
                               (mkVM [] {["x" := 1]} ["a"])))
       = stdout (mkVM [] {["x" := 1]} ["a"]) ++ lines.
Proof.
  apply (run_frame [Op.PUSH 5; Op.STORE "y"; Op.LOAD "x"; Op.PRINT; Op.LOAD "z"] "x"
           (mkVM [] {["x" := 1]} ["a"])).
  apply (bool_decide_unpack _). vm_compute. exact I.
Defined.

Lemma program_agrees ast :
  forallb is_stmt ast = true ->
  exists c, (forall bc, gen_all ast bc = Ok (bc ++ c)) /\
    forall rest vs out,
      stdout (machine_of (run c (mkVM rest vs out))) = printed ast (vs, out) /\
      match run c (mkVM rest vs out) with
      | Done vm' => exec ast (vs, out) = Some (vars vm', stdout vm') /\ stack vm' = rest
      | Fail e vm' =>
          exec ast (vs, out) = None /\ (e = ZeroDivisionError \/ exists n, e = KeyError n)
      end.
Proof.
  induction ast as [|s ast IH]; simpl.
  - intros _. exists []. split; [intros bc; by rewrite app_nil_r|]. done.
  - intros [Hs Hast]%andb_prop.
    destruct (gen_stmt s Hs) as (c1 & G1 & R1). destruct (IH Hast) as (c2 & G2 & R2).
    exists (c1 ++ c2). split.
    { intros bc. rewrite G1. simpl. rewrite G2. by rewrite <- app_assoc. }
    intros rest vs out. rewrite run_app. specialize (R1 rest vs out).
    destruct (exec_stmt s (vs, out)) as [[vs1 out1]|]; simpl.
    + rewrite R1. apply R2.
    + destruct R1 as (ex & vm' & -> & Hex & Hout). simpl. by rewrite Hout.
Qed.



(** ** The errors that can escape *)

Lemma raises_bind {A B : Type} (P : exn -> Prop) (r : result A) (k : A -> result B) :
  raises P r -> (forall a, raises P (k a)) -> raises P (r ≫= k).
Proof.
  intros Hr Hk e. destruct r as [a|e'|]; simpl; [apply Hk| |done].
  intros [= ->]. by apply Hr.
Qed.

Lemma raises_ok {A : Type} (P : exn -> Prop) (a : A) : raises P (Ok a).
Proof. by intros e. Qed.

Lemma next_token_raises lx : raises front_error (next_token lx).
Proof.
  unfold next_token. destruct (String.get _ _) as [c|]; [|apply raises_ok].
  destruct (isdigit c).
  { apply raises_bind; [|intros n; apply raises_ok].
    unfold int. intros e. destruct (slice _ _ _) as [|c0 s0].
    - intros [= <-]. right. right. by eexists.
    - destruct (int_digits _ _); [done|]. intros [= <-]. right. right. by eexists. }
  destruct (isalpha c); [destruct (String.eqb _ _); apply raises_ok|].
  repeat (destruct (Ascii.eqb c _); [apply raises_ok|]).
  intros e [= <-]. left. by exists c.
Qed.

Lemma advance_raises p : raises front_error (advance p).
Proof.
  apply raises_bind; [apply next_token_raises|]. intros [t lx]. apply raises_ok.
Qed.

Lemma eat_raises ty p : raises front_error (eat ty p).
Proof.
  unfold eat. destruct (decide _); [apply (advance_raises p)|].
  intros e [= <-]. right. left. by eexists _, _.
Qed.

Lemma while_op_raises ops sub fuel nd p :
  (forall q, raises front_error (sub q)) ->
  raises front_error (while_op ops sub fuel nd p).
Proof.
  intros Hsub. revert nd p. induction fuel as [|fuel IH]; intros nd p; simpl; [done|].
  destruct (bool_decide _); [|apply raises_ok].
  apply raises_bind; [apply eat_raises|]. intros p1.
  apply raises_bind; [apply Hsub|]. intros [r p2]. apply IH.
Qed.

Lemma term_with_raises sub fuel p :
  (forall q, raises front_error (sub q)) -> raises front_error (term_with sub fuel p).
Proof.
  intros Hsub. apply raises_bind; [apply Hsub|]. intros [nd p1]. by apply while_op_raises.
Qed.

Lemma expr_with_raises sub fuel p :
  (forall q, raises front_error (sub q)) -> raises front_error (expr_with sub fuel p).
Proof.
  intros Hsub. apply raises_bind; [by apply term_with_raises|]. intros [nd p1].
  apply while_op_raises. intros q. by apply term_with_raises.
Qed.

Lemma factor_raises fuel p : raises front_error (factor fuel p).
Proof.
  revert p. induction fuel as [|fuel IH]; intros p; simpl; [done|].
  destruct (token p) as [v|x|[]]; try apply raises_ok.
  - apply raises_bind; [apply eat_raises|]. intros p1. apply raises_ok.
  - apply raises_bind; [apply eat_raises|]. intros p1. apply raises_ok.
  - apply raises_bind; [apply eat_raises|]. intros p1.
    apply raises_bind; [by apply expr_with_raises|]. intros [nd p2].
    apply raises_bind; [apply eat_raises|]. intros p3. apply raises_ok.
Qed.

Lemma statement_raises fuel p : raises front_error (statement fuel p).
Proof.
  unfold statement. destruct (token p) as [v|x|[]]; try apply raises_ok.
  - apply raises_bind; [apply eat_raises|]. intros p1.
    apply raises_bind; [apply eat_raises|]. intros p2.
    apply raises_bind; [apply expr_with_raises, factor_raises|]. intros [e p3].
    apply raises_ok.
  - apply raises_bind; [apply eat_raises|]. intros p1.
    apply raises_bind; [apply expr_with_raises, factor_raises|]. intros [e p3].
    apply raises_ok.
Qed.

Lemma parse_loop_raises fuel n acc p : raises front_error (parse_loop fuel n acc p).
Proof.
  revert acc p. induction n as [|n IH]; intros acc p; simpl; [done|].
  destruct (decide _); [|apply raises_ok].
  apply raises_bind; [apply statement_raises|]. intros [s p1]. apply IH.
Qed.

Lemma compile_raises fuel source :
  raises (fun e => front_error e \/ e = TypeError) (compile fuel source).
Proof.
  unfold compile. intros e.
  destruct (Parser_init (mkLexer source 0)) as [p|e'|] eqn:Hinit; simpl; [| |done].
  2:{ intros [= <-]. left. revert Hinit. unfold Parser_init.
      apply raises_bind; [apply next_token_raises|]. intros [t lx]. apply raises_ok. }
  destruct (parse fuel p) as [[ast p']|e'|] eqn:Hparse; simpl; [| |done].
  2:{ intros [= <-]. left. by apply (parse_loop_raises fuel fuel [] p). }
  pose proof (parse_loop_shaped _ _ [] _ _ _ eq_refl Hparse) as Hshaped.
  destruct (gen_all_shaped ast Hshaped) as [Hast|Hraise].
  - destruct (gen_program ast Hast) as (c & G & _). by rewrite G.
  - rewrite Hraise. intros [= <-]. by right.
Qed.

Lemma run_fails_with c vm e vm' :
  run c vm = Fail e vm' ->
  e = IndexError \/ e = ZeroDivisionError \/ exists n, e = KeyError n.
Proof.
  revert vm. induction c as [|i c IH]; intros vm; simpl; [done|].
  destruct (step i vm) as [vm1|e1 vm1] eqn:Hstep; [apply IH|].
  intros [= <- <-]. destruct i as [v|x|x| | | | |]; simpl in Hstep; unfold binary in Hstep.
  - done.
  - destruct (vars vm !! x); [done|]. injection Hstep as <- _. eauto.
  - destruct (stack vm); [|done]. injection Hstep as <- _. eauto.
  - destruct (stack vm) as [|b [|a rest]]; try done; injection Hstep as <- _; eauto.
  - destruct (stack vm) as [|b [|a rest]]; try done; injection Hstep as <- _; eauto.
  - destruct (stack vm) as [|b [|a rest]]; try done; injection Hstep as <- _; eauto.
  - destruct (stack vm) as [|b [|a rest]]; try (injection Hstep as <- _; eauto).
    destruct (decide (b = 0)); [|done]. injection Hstep as <- _. eauto.
  - destruct (stack vm); [|done]. injection Hstep as <- _. eauto.
Qed.



(** What [STORE n] binds to [n] is what [LOAD n] pushes, as long as no
    other [STORE n] runs in between: the last write wins. *)
Theorem stored_value_is_loaded n v rest vs out c vm' :
  Op.STORE n ∉ c ->
  run c (mkVM rest (<[n := v]> vs) out) = Done vm' ->
  run (Op.STORE n :: c ++ [Op.LOAD n]) (mkVM (v :: rest) vs out) = Done (push v vm').
Proof.
  intros Hc Hrun. simpl. rewrite run_app, Hrun. simpl.
  destruct (run_untouched c n (mkVM rest (<[n := v]> vs) out) Hc) as (Hv & _).
  rewrite Hrun in Hv. simpl in Hv. by rewrite Hv, lookup_insert_eq.
Qed.

Lemma stored_value_is_loaded_witness :
  run (Op.STORE "x" :: [Op.PUSH 9; Op.STORE "y"; Op.LOAD "x"; Op.PRINT] ++ [Op.LOAD "x"])
      (mkVM [2; 1] {["x" := 0]} []) =
  Done (push 2 (mkVM [1] (<["y" := 9]> (<["x" := 2]> {["x" := 0]})) ["2"])).
Proof.
  apply stored_value_is_loaded.
  - apply (bool_decide_unpack _). vm_compute. exact I.
  - reflexivity.
Defined.

(** A source of whitespace only, the empty one included, compiles to no
    instruction and runs to the end with nothing printed. *)
Theorem blank_source_prints_nothing source fuel :
  all_chars isspace source = true -> (1 <= fuel)%nat ->
  compile fuel source = Ok [] /\ run_compiler fuel source = Returned [].
Proof.
  intros Hblank Hfuel.
  assert (compile fuel source = Ok []) as Hc; [|split; [done|]].
  - unfold compile, Parser_init, next_token. simpl.
    rewrite (scan_all isspace source Hblank).
    assert (String.get (String.length source) source = None) as -> by by apply get_none.
    simpl. destruct fuel as [|fuel]; [lia|]. done.
  - unfold run_compiler, run_compiler_from. by rewrite Hc.
Qed.

Lemma blank_source_prints_nothing_witness :
  compile 1 (newline +:+ "  " +:+ newline) = Ok [] /\
  run_compiler 1 (newline +:+ "  " +:+ newline) = Returned [].
Proof.
  apply blank_source_prints_nothing; [reflexivity|lia].
Defined.

(** ** [Token.__repr__] *)

Lemma str_inj n m : str n = str m -> n = m.
Proof.
  unfold str. intros H. apply DecimalZ.to_int_inj.
  assert (forall k, NilZero.int_of_string (NilZero.string_of_int (Z.to_int k)) =
                    Some (Z.to_int k)) as Hisi.
  { intros k. apply NilZero.isi; destruct k as [|p|p]; simpl; try done;
      intros [= E]; by apply (DecimalPos.Unsigned.to_uint_nonnil p). }
  pose proof (Hisi n) as Hn. rewrite H, Hisi in Hn. by injection Hn.
Qed.

(** The representations of two tokens of the lexer are the same string
    only when the tokens are the same: the type and the value can be read
    off [repr]. *)
Theorem repr_inj t t' :
  lexer_token t = true -> lexer_token t' = true -> repr t = repr t' -> t = t'.
Proof.
  destruct t as [v|x|ty], t' as [v'|x'|ty']; try destruct ty; try destruct ty';
    simpl; intros Ht Ht' H; try discriminate; try reflexivity.
  - injection H as H. by rewrite (str_inj v v' H).
  - injection H as H. cbv [String.append] in H. by rewrite H.
Qed.

Lemma repr_inj_witness : TIdent "None" = TIdent "None".
Proof.
  apply (repr_inj (TIdent "None") (TIdent "None")); reflexivity.
Defined.
